(** * Polly synthesizer: chunked audio streaming and text alignment

    A shallow embedding of [vocode/streaming/synthesizer/polly_synthesizer.py].

    - [PollySynthesizer.__init__] is a function into an error sum;
    - the word-event parsing of [create_speech_with_cache] is a fallible
      traversal over the tokens of [str.split];
    - [get_message_up_to] is a scan over the word events, with the float
      product [seconds * 1000] rounded as binary64 arithmetic rounds it, and,
      on the values [json.loads] returns, with the exceptions its subscripts,
      comparison and slice raise;
    - the async generator [chunk_generator] is a state machine over its
      suspension points, stepped by [anext] and abandoned by [aclose], with
      the audio stream threaded through as explicit state. *)

From Stdlib Require Import QArith Qround Qpower Lqa.
From Stdlib Require Import PrimFloat FloatOps SpecFloat.
From Stdlib Require Import Strings.Byte Ascii String.
From stdpp Require Import base tactics option list sorting pretty.
From stdpp Require Import strings gmap.

Local Open Scope nat_scope.

(** ** Python values used by the module *)

(** [bytes]: an immutable sequence of bytes. *)
Definition bytes := list Byte.byte.

(** Python exceptions are values of the left summand. *)
Definition result (E A : Type) : Type := E + A.

Definition ok {E A} (a : A) : result E A := inr a.
Definition raise {E A} (e : E) : result E A := inl e.

Definition bind {E A B} (m : result E A) (k : A → result E B) : result E B :=
  match m with
  | inl e => inl e
  | inr a => k a
  end.

(** ** The audio stream

    [audio_response.get("AudioStream")] is a file-like object over the bytes
    the service sends.  [data] holds the bytes not yet read; [reads] and
    [closes] count the calls of [read] and [close] made on the object. *)
Record Stream := mkStream {
  data : bytes;
  reads : nat;
  closes : nat
}.

Definition open_stream (b : bytes) : Stream := mkStream b 0 0.

(** [stream.read(amt)] for [amt >= 0]: at most [amt] bytes, fewer only at the
    end of the stream. *)
Definition read (amt : nat) (s : Stream) : bytes * Stream :=
  (take amt (data s), mkStream (drop amt (data s)) (S (reads s)) (closes s)).

(** ** [SynthesisResult.ChunkResult(chunk, is_last_chunk)] *)
Record ChunkResult := mkChunk {
  chunk : bytes;
  is_last_chunk : bool
}.

(** ** The generator [chunk_generator]

    A suspended generator is at one of its four [yield]s, named by source
    line; [Created] is the generator before its first [__anext__],
    [Finished] the generator whose body has returned or that was closed. *)
Inductive GenState :=
  | Created
  | Yield102
  | Yield105
  | Yield109
  | Yield113
  | Finished.

(** What one [__anext__] gives the consumer. *)
Inductive Pull :=
  | Yielded (c : ChunkResult)
  | StopAsyncIteration.

Section ChunkGenerator.

(** The variables [chunk_generator] closes over. *)
Variable chunk_size : nat.
Variable chunk_transform : bytes → bytes.

(** One [__anext__]: run the body from the current suspension point to the
    next [yield] or to the end. *)
Definition anext (g : GenState) (audio_stream : Stream)
  : Pull * GenState * Stream :=
  match g with
  | Created =>
      let '(audio_buffer, audio_stream) := read chunk_size audio_stream in
      if negb (length audio_buffer =? chunk_size)
      then (Yielded (mkChunk (chunk_transform audio_buffer) true),
            Yield102, audio_stream)
      else (Yielded (mkChunk (chunk_transform audio_buffer) false),
            Yield105, audio_stream)
  | Yield102 => (StopAsyncIteration, Finished, audio_stream)
  | Yield105 | Yield113 =>
      let '(audio_buffer, audio_stream) := read chunk_size audio_stream in
      if negb (length audio_buffer =? chunk_size)
      then (Yielded
              (mkChunk
                 (chunk_transform (take (length audio_buffer) audio_buffer))
                 true),
            Yield109, audio_stream)
      else (Yielded (mkChunk (chunk_transform audio_buffer) false),
            Yield113, audio_stream)
  | Yield109 => (StopAsyncIteration, Finished, audio_stream)
  | Finished => (StopAsyncIteration, Finished, audio_stream)
  end.

(** [aclose()]: [GeneratorExit] is raised at the suspension point; the body
    has no [try]/[finally] and no [with], so nothing of it runs. *)
Definition aclose (g : GenState) (audio_stream : Stream)
  : GenState * Stream :=
  (Finished, audio_stream).

(** [async for chunk in generator]: pull until [StopAsyncIteration],
    collecting what was yielded.  [fuel] bounds the number of pulls. *)
Fixpoint consume (fuel : nat) (g : GenState) (audio_stream : Stream)
  : option (list ChunkResult * Stream) :=
  match fuel with
  | 0 => None
  | S fuel =>
      match anext g audio_stream with
      | (Yielded c, g, audio_stream) =>
          '(cs, audio_stream) ← consume fuel g audio_stream;
          Some (c :: cs, audio_stream)
      | (StopAsyncIteration, _, audio_stream) => Some ([], audio_stream)
      end
  end.

(** [n] successive pulls, whatever they give. *)
Fixpoint pulls (n : nat) (g : GenState) (audio_stream : Stream)
  : list Pull * GenState * Stream :=
  match n with
  | 0 => ([], g, audio_stream)
  | S n =>
      let '(p, g, audio_stream) := anext g audio_stream in
      let '(ps, g, audio_stream) := pulls n g audio_stream in
      (p :: ps, g, audio_stream)
  end.

End ChunkGenerator.

(** ** [PollySynthesizer.__init__] *)

Record PollySynthesizerConfig := mkConfig {
  sampling_rate : Z;
  language_code : string;
  voice_id : string;
  should_encode_as_wav : bool
}.

(** [Exception("Sampling rate not supported by AWS Polly", sampling_rate)]:
    the exception's [args]. *)
Inductive PyException :=
  | Exception (message : string) (arg : Z).

(** Calls that leave the process, in the order they are made. *)
Inductive Call :=
  | Boto3Client (service : string)
  | SynthesizeSpeech (output_format : string).

Definition is_synthesis_call (c : Call) : bool :=
  match c with
  | SynthesizeSpeech _ => true
  | Boto3Client _ => false
  end.

(** The attributes [__init__] sets; the thread pool executor, which only
    schedules the blocking calls, is left out. *)
Record PollySynthesizer (Client : Type) := mkSynthesizer {
  synthesizer_config : PollySynthesizerConfig;
  self_sampling_rate : Z;
  self_client : Client;
  self_language_code : string;
  self_voice_id : string
}.

Arguments mkSynthesizer {Client}.
Arguments synthesizer_config {Client}.
Arguments self_sampling_rate {Client}.
Arguments self_client {Client}.
Arguments self_language_code {Client}.
Arguments self_voice_id {Client}.

(** The constructor.  [polly] is what [boto3.client("polly")] returns; that
    call and [super().__init__] belong to collaborators and return normally
    here.  The result pairs the calls made with the outcome. *)
Definition __init__ {Client : Type} (polly : Client)
    (config : PollySynthesizerConfig)
  : list Call * result PyException (PollySynthesizer Client) :=
  let calls := [Boto3Client "polly"] in
  if decide (sampling_rate config ∉ [8000; 16000]%Z)
  then (calls,
        raise (Exception "Sampling rate not supported by AWS Polly"
                 (sampling_rate config)))
  else (calls,
        ok (mkSynthesizer config (sampling_rate config) polly
              (language_code config) (voice_id config))).

(** ** Word events and [get_message_up_to] *)

(** A parsed speech mark: the two keys the module reads. *)
Record WordEvent := mkEvent {
  time : Z;
  start : Z
}.

(** *** Floats

    A finite [float] is the rational it denotes.  The result of a float
    operation is that of IEEE 754 binary64 arithmetic: the exact result
    rounded to the nearest representable value, ties to the even mantissa,
    and to an infinity when the rounded magnitude reaches [2^1024]. *)
Inductive fvalue :=
  | NegInf
  | Real (q : Q)
  | PosInf.

(** The exponent [k] with [2^k <= a < 2^(k+1)], for [a > 0]. *)
Definition Qlog2_floor (a : Q) : Z :=
  let k := (Z.log2 (Qnum a) - Z.log2 (Zpos (Qden a)))%Z in
  if Qle_bool (2 ^ k)%Q a then k else (k - 1)%Z.

(** The nearest integer, ties to even. *)
Definition round_half_even (x : Q) : Z :=
  let n := Qfloor x in
  match (x - inject_Z n ?= 1 # 2)%Q with
  | Lt => n
  | Eq => if Z.even n then n else (n + 1)%Z
  | Gt => (n + 1)%Z
  end.

(** The exponent of the last place of the binary64 values around [a > 0]:
    53 bits of mantissa, and no exponent below that of the subnormals. *)
Definition ulp_exponent (a : Q) : Z := Z.max (Qlog2_floor a - 52) (-1074).

(** [a > 0] rounded to a multiple of its unit in the last place. *)
Definition round_magnitude (a : Q) : Q :=
  let e := ulp_exponent a in
  (inject_Z (round_half_even (a / 2 ^ e)) * 2 ^ e)%Q.

(** Rounding to binary64. *)
Definition round64 (q : Q) : fvalue :=
  match (q ?= 0)%Q with
  | Eq => Real 0
  | Gt => let r := round_magnitude q in
          if Qle_bool (2 ^ 1024)%Q r then PosInf else Real r
  | Lt => let r := round_magnitude (- q)%Q in
          if Qle_bool (2 ^ 1024)%Q r then NegInf else Real (- r)%Q
  end.

(** [x * y] on floats. *)
Definition float_mul (x y : Q) : fvalue := round64 (x * y).

(** [n > y] for an [int] and a float: the values are compared exactly. *)
Definition int_gt_float (n : Z) (y : fvalue) : bool :=
  match y with
  | NegInf => true
  | Real q => negb (Qle_bool (inject_Z n) q)
  | PosInf => false
  end.

(** The order of float values. *)
Definition fle (x y : fvalue) : Prop :=
  match x, y with
  | NegInf, _ => True
  | _, PosInf => True
  | Real a, Real b => (a <= b)%Q
  | _, _ => False
  end.

(** What a primitive float denotes; [None] for a NaN. *)
Definition fvalue_of_float (x : float) : option fvalue :=
  match Prim2SF x with
  | S754_zero _ => Some (Real 0)
  | S754_infinity s => Some (if s then NegInf else PosInf)
  | S754_nan => None
  | S754_finite s m e =>
      Some (Real ((if s then -1 else 1) * inject_Z (Zpos m) * 2 ^ e)%Q)
  end.

Definition fvalue_eqb (a b : option fvalue) : bool :=
  match a, b with
  | Some NegInf, Some NegInf | Some PosInf, Some PosInf => true
  | Some (Real x), Some (Real y) => Qeq_bool x y
  | _, _ => false
  end.

(** [float_mul] on the values of two finite primitive floats gives the value
    of their product as the kernel computes it. *)
Definition float_mul_agrees (x y : float) : bool :=
  match fvalue_of_float x, fvalue_of_float y with
  | Some (Real a), Some (Real b) =>
      fvalue_eqb (Some (float_mul a b)) (fvalue_of_float (x * y)%float)
  | _, _ => false
  end.

(** [event["time"] > seconds * 1000] for a finite float [seconds]. *)
Definition later_than (event : WordEvent) (seconds : Q) : bool :=
  int_gt_float (time event) (float_mul seconds 1000).

Section Text.

(** The characters of a [str]. *)
Context {char : Type}.

(** [message[:stop]], with Python's treatment of a negative or too large
    [stop]. *)
Definition slice_to (message : list char) (stop : Z) : list char :=
  let len := Z.of_nat (length message) in
  let stop :=
    if (stop <? 0)%Z then Z.max (stop + len) 0 else Z.min stop len in
  take (Z.to_nat stop) message.

(** [self] is not used by the method and is left out. *)
Fixpoint get_message_up_to (message : list char) (seconds : Q)
    (word_events : list WordEvent) : list char :=
  match word_events with
  | [] => message
  | event :: word_events =>
      if later_than event seconds
      then slice_to message (start event)
      else get_message_up_to message seconds word_events
  end.

(** *** [str.split()] *)

Variable isspace : char → bool.

(** A scan from left to right; [word] holds the characters of the word
    being read, last one first. *)
Fixpoint split_from (word : list char) (s : list char) : list (list char) :=
  match s with
  | [] => match word with [] => [] | _ :: _ => [rev word] end
  | ch :: s =>
      if isspace ch
      then match word with
           | [] => split_from [] s
           | _ :: _ => rev word :: split_from [] s
           end
      else split_from (ch :: word) s
  end.

Definition split (s : list char) : list (list char) := split_from [] s.

(** *** The comprehension building [word_events] *)

Context {E J : Type}.
Variable decode : bytes → result E (list char).
Variable json_loads : list char → result E J.

(** [bool(v)] for a [str]. *)
Definition truthy (v : list char) : bool :=
  match v with [] => false | _ :: _ => true end.

(** [[json.loads(v) for v in vs if v]]: the first exception ends it. *)
Fixpoint loads_each (vs : list (list char)) : result E (list J) :=
  match vs with
  | [] => ok []
  | v :: vs =>
      if truthy v
      then bind (json_loads v) (fun event =>
           bind (loads_each vs) (fun events =>
           ok (event :: events)))
      else loads_each vs
  end.

(** [speech_marks] is what [AudioStream.read()] of the speech marks
    response returns. *)
Definition parse_word_events (speech_marks : bytes) : result E (list J) :=
  bind (decode speech_marks) (fun text => loads_each (split text)).

End Text.

(** ** The values of [json.loads], and the method on them

    [get_message_up_to] above is the method on word marks, objects whose
    ["time"] and ["start"] are integers.  [json.loads] returns whatever value
    the record denotes; [Json.get_message_up_to] is the method on such
    values, with the exceptions its subscripts, comparison and slice
    raise. *)

Set Warnings "-register-all".

(** A [float] out of [json.loads]: a NaN or a value. *)
Inductive pyfloat :=
  | FNaN
  | FNum (v : fvalue).

Inductive json :=
  | JNull
  | JBool (b : bool)
  | JInt (n : Z)
  | JFloat (x : pyfloat)
  | JStr (s : string)
  | JList (l : list json)
  | JDict (d : gmap string json).

Set Warnings "+register-all".

Inductive AlignmentError :=
  | KeyError (key : string)
  | TypeError.

(** [int(b)] for a [bool], which is an [int] in comparisons and slices. *)
Definition int_of_bool (b : bool) : Z := if b then 1%Z else 0%Z.

(** [event[key]] for a [str] key. *)
Definition getitem (event : json) (key : string)
  : result AlignmentError json :=
  match event with
  | JDict d =>
      match d !! key with
      | Some v => ok v
      | None => raise (KeyError key)
      end
  | _ => raise TypeError
  end.

(** [x > y] on floats; a comparison with a NaN is false. *)
Definition float_gt (x : pyfloat) (y : fvalue) : bool :=
  match x, y with
  | FNaN, _ => false
  | FNum PosInf, PosInf => false
  | FNum PosInf, _ => true
  | FNum NegInf, _ => false
  | FNum (Real _), NegInf => true
  | FNum (Real a), Real b => negb (Qle_bool a b)
  | FNum (Real _), PosInf => false
  end.

(** [v > y] for a float [y]. *)
Definition gt_float (v : json) (y : fvalue) : result AlignmentError bool :=
  match v with
  | JInt n => ok (int_gt_float n y)
  | JBool b => ok (int_gt_float (int_of_bool b) y)
  | JFloat x => ok (float_gt x y)
  | JNull | JStr _ | JList _ | JDict _ => raise TypeError
  end.

Module Json.
Section Json.

Context {char : Type}.

(** [message[:stop]]. *)
Definition slice (message : list char) (stop : json)
  : result AlignmentError (list char) :=
  match stop with
  | JInt n => ok (slice_to message n)
  | JBool b => ok (slice_to message (int_of_bool b))
  | JNull => ok message
  | JFloat _ | JStr _ | JList _ | JDict _ => raise TypeError
  end.

Fixpoint get_message_up_to (message : list char) (seconds : Q)
    (word_events : list json) : result AlignmentError (list char) :=
  match word_events with
  | [] => ok message
  | event :: word_events =>
      bind (getitem event "time") (fun t =>
      bind (gt_float t (float_mul seconds 1000)) (fun later =>
      if later : bool
      then bind (getitem event "start") (fun stop => slice message stop)
      else get_message_up_to message seconds word_events))
  end.

End Json.
End Json.

(** The value [v] is a word mark with the fields of [event]. *)
Definition is_mark (v : json) (event : WordEvent) : Prop :=
  ∃ d, v = JDict d ∧
       d !! "time"%string = Some (JInt (time event)) ∧
       d !! "start"%string = Some (JInt (start event)).

(** ** [create_speech_with_cache] *)

(** [SynthesisResult(output_generator, lambda seconds: ...)].  The generator
    object is its closure ([chunk_size], [chunk_transform]) and its
    suspension point; [audio_stream] is the stream object it reads. *)
Record SynthesisResult {char : Type} := mkResult {
  generator_chunk_size : nat;
  generator_chunk_transform : bytes → bytes;
  generator_state : GenState;
  audio_stream : Stream;
  get_message_up_to_closure : Q → result AlignmentError (list char)
}.

Arguments SynthesisResult : clear implicits.

Section CreateSpeech.

Context {char E Client : Type}.
Variable isspace : char → bool.
Variable decode : bytes → result E (list char).
Variable json_loads : list char → result E json.
(** [encode_as_wav] of [base_synthesizer]. *)
Variable encode_as_wav : bytes → PollySynthesizerConfig → bytes.

(** The [chunk_transform] handed to [chunk_generator]: the [lambda] of
    line 118, or the default [lambda x: x]. *)
Definition output_transform (config : PollySynthesizerConfig)
  : bytes → bytes :=
  if should_encode_as_wav config
  then fun chunk => encode_as_wav chunk config
  else fun x => x.

(** [audio] and [speech_marks] are the bytes the two [synthesize_speech]
    responses deliver.  [chunk_generator] ignores its first parameter and
    reads [audio_stream] of the enclosing call, the same object. *)
Definition create_speech_with_cache (self : PollySynthesizer Client)
    (text : list char) (chunk_size : nat) (audio speech_marks : bytes)
  : list Call * result E (SynthesisResult char) :=
  let calls := [SynthesizeSpeech "pcm"; SynthesizeSpeech "json"] in
  (calls,
   bind (parse_word_events isspace decode json_loads speech_marks)
     (fun word_events =>
        ok (mkResult char chunk_size
              (output_transform (synthesizer_config self))
              Created
              (open_stream audio)
              (fun seconds =>
                 Json.get_message_up_to text seconds word_events)))).

End CreateSpeech.

(** ** [synthesize] and [get_speech_marks] *)

(** The keyword arguments of [client.synthesize_speech].  [SpeechMarkTypes]
    is [None] when the keyword is not passed. *)
Record SynthesizeSpeechRequest {char : Type} := mkRequest {
  Text : list char;
  LanguageCode : string;
  TextType : string;
  OutputFormat : string;
  VoiceId : string;
  SampleRate : string;
  SpeechMarkTypes : option (list string)
}.

Arguments SynthesizeSpeechRequest : clear implicits.
Arguments mkRequest {char}.

(** [str(n)] for an [int]: its decimal digits, with a minus sign when
    negative. *)
Definition str_of_int (n : Z) : string := pretty n.

Section Requests.

Context {char Client Response : Type}.

(** [client.synthesize_speech], the service call. *)
Variable synthesize_speech :
  Client → SynthesizeSpeechRequest char → Response.

Definition synthesize (self : PollySynthesizer Client) (message : list char)
  : Response :=
  synthesize_speech (self_client self)
    (mkRequest message (self_language_code self) "text" "pcm"
       (self_voice_id self) (str_of_int (self_sampling_rate self)) None).

Definition get_speech_marks (self : PollySynthesizer Client)
    (message : list char) : Response :=
  synthesize_speech (self_client self)
    (mkRequest message (self_language_code self) "text" "json"
       (self_voice_id self) (str_of_int (self_sampling_rate self))
       (Some ["word"%string])).

End Requests.

(** ** [sep.join(tokens)] *)

Fixpoint join {char : Type} (sep : list char) (tokens : list (list char))
  : list char :=
  match tokens with
  | [] => []
  | [t] => t
  | t :: tokens => t ++ sep ++ join sep tokens
  end.

(** ** Concrete collaborators, to run the model on ASCII streams *)

Module Ascii7.

(** [str.isspace] on the ASCII range. *)
Definition isspace (ch : ascii) : bool :=
  let n := nat_of_ascii ch in
  ((9 <=? n) && (n <=? 13)) || ((28 <=? n) && (n <=? 32)).

(** [bytes.decode()] on streams of ASCII bytes; any other byte is refused. *)
Fixpoint decode (b : bytes) : result string (list ascii) :=
  match b with
  | [] => ok []
  | x :: b =>
      if (Byte.to_nat x <? 128)
      then bind (decode b) (fun s => ok (ascii_of_byte x :: s))
      else raise "UnicodeDecodeError"%string
  end.

Definition encode (s : list ascii) : bytes := map byte_of_ascii s.

Definition str (s : string) : list ascii := list_ascii_of_string s.

Definition dquote : ascii := ascii_of_nat 34.

Definition digit_of (ch : ascii) : option Z :=
  let n := nat_of_ascii ch in
  if (48 <=? n) && (n <=? 57) then Some (Z.of_nat (n - 48)) else None.

Fixpoint number (acc : Z) (s : list ascii) : Z * list ascii :=
  match s with
  | [] => (acc, [])
  | ch :: s' =>
      match digit_of ch with
      | Some d => number (10 * acc + d) s'
      | None => (acc, s)
      end
  end.

Fixpoint expect (p s : list ascii) : option (list ascii) :=
  match p, s with
  | [], _ => Some s
  | a :: p, b :: s => if Ascii.eqb a b then expect p s else None
  | _ :: _, [] => None
  end.

Definition key_time : list ascii :=
  str "{" ++ [dquote] ++ str "time" ++ [dquote] ++ str ":".
Definition key_start : list ascii :=
  str "," ++ [dquote] ++ str "start" ++ [dquote] ++ str ":".

(** The text of a mark with the two keys the module reads. *)
Definition mark (t s : string) : list ascii :=
  key_time ++ str t ++ key_start ++ str s ++ str "}".

Definition starts_with_digit (s : list ascii) : bool :=
  match s with
  | ch :: _ => bool_decide (is_Some (digit_of ch))
  | [] => false
  end.

(** [json.loads] restricted to marks written by [mark]; anything else is
    refused. *)
Definition json_loads (v : list ascii) : result string WordEvent :=
  match expect key_time v with
  | Some r =>
      if starts_with_digit r then
        let '(t, r) := number 0 r in
        match expect key_start r with
        | Some r =>
            if starts_with_digit r then
              let '(s, r) := number 0 r in
              match r with
              | [ch] =>
                  if Ascii.eqb ch "}"
                  then ok (mkEvent t s)
                  else raise "JSONDecodeError"%string
              | _ => raise "JSONDecodeError"%string
              end
            else raise "JSONDecodeError"%string
        | None => raise "JSONDecodeError"%string
        end
      else raise "JSONDecodeError"%string
  | None => raise "JSONDecodeError"%string
  end.

Definition newline : ascii := ascii_of_nat 10.

(** The object of a mark, and [json_loads] giving objects. *)
Definition mark_value (event : WordEvent) : json :=
  JDict {[ "time"%string := JInt (time event);
           "start"%string := JInt (start event) ]}.

Definition loads (v : list ascii) : result string json :=
  bind (json_loads v) (fun event => ok (mark_value event)).

(** A timing stream whose second record is not a mark. *)
Definition broken_marks : list ascii :=
  mark "0" "0" ++ [newline] ++ str "{oops" ++ [newline] ++ mark "500" "6".

End Ascii7.

Definition x00 : Byte.byte := Byte.x00.

(** ** Closed forms used to state the results *)

(** [ceil(n/c)] on naturals. *)
Definition ceil_div (n c : nat) : nat := (n + c - 1) / c.

(** What a run of the generator yields over the bytes [d] when [k] full
    reads come before the short one. *)
Fixpoint chunks_from (c : nat) (f : bytes → bytes) (k : nat) (d : bytes)
  : list ChunkResult :=
  match k with
  | 0 => [mkChunk (f d) true]
  | S k => mkChunk (f (take c d)) false :: chunks_from c f k (drop c d)
  end.

(** The generator is about to read: it is new or suspended after a full
    chunk. *)
Definition reading (g : GenState) : Prop :=
  g = Created ∨ g = Yield105 ∨ g = Yield113.

(** The final chunk has been yielded, or the generator is finished. *)
Definition stopped (g : GenState) : Prop :=
  g = Yield102 ∨ g = Yield109 ∨ g = Finished.

(** The non-final chunks of [chunks_from]. *)
Fixpoint full_chunks (c : nat) (f : bytes → bytes) (k : nat) (d : bytes)
  : list ChunkResult :=
  match k with
  | 0 => []
  | S k => mkChunk (f (take c d)) false :: full_chunks c f k (drop c d)
  end.

(** [chunk_transform] on a yielded chunk; the flag is kept. *)
Definition transformed (f : bytes → bytes) (c : ChunkResult) : ChunkResult :=
  mkChunk (f (chunk c)) (is_last_chunk c).

Definition final_chunks (cs : list ChunkResult) : list ChunkResult :=
  filter (λ c, is_last_chunk c = true) cs.

(** The chunk count and payload lengths as the chunk producer is described:
    [ceil(n/c)] chunks for [n > 0] bytes, one empty final chunk for [n = 0],
    non-final payloads of [c] bytes, and a final payload of [n mod c] bytes,
    or [c] when [c] divides [n > 0]. *)
Definition ceil_chunking (c : nat) (d : bytes) : Prop :=
  let n := length d in
  ∀ fuel chunks s',
    consume c (λ x, x) fuel Created (open_stream d) = Some (chunks, s') →
    (0 < n → length chunks = ceil_div n c) ∧
    (n = 0 → chunks = [mkChunk [] true]) ∧
    (∀ ch, ch ∈ chunks → is_last_chunk ch = false → length (chunk ch) = c) ∧
    (∀ fin, last chunks = Some fin →
       length (chunk fin)
       = if (n mod c =? 0) && (0 <? n) then c else n mod c).

(** Release on abandonment as the chunk producer is described: after [n]
    pulls and an [aclose], the stream has been closed exactly once. *)
Definition released_once (c : nat) (f : bytes → bytes) (d : bytes) (n : nat)
  : Prop :=
  let '(_, g, s) := pulls c f n Created (open_stream d) in
  closes (aclose g s).2 = 1.

(** [chunk_transform] on what a pull gives. *)
Definition transformed_pull (f : bytes → bytes) (p : Pull) : Pull :=
  match p with
  | Yielded ch => Yielded (transformed f ch)
  | StopAsyncIteration => StopAsyncIteration
  end.

(** Events in order of non-decreasing [time]. *)
Definition time_ordered (events : list WordEvent) : Prop :=
  StronglySorted (λ a b, (time a ≤ time b)%Z) events.

(** Events with non-negative [start] offsets in non-decreasing order. *)
Definition start_ordered (events : list WordEvent) : Prop :=
  Forall (λ e, (0 ≤ start e)%Z) events ∧
  StronglySorted (λ a b, (start a ≤ start b)%Z) events.

(** The alignment is monotone in the elapsed time. *)
Definition elapsed_monotone {char : Type} (message : list char)
    (events : list WordEvent) : Prop :=
  ∀ e1 e2 : Q,
    (e1 <= e2)%Q →
    get_message_up_to message e1 events
      `prefix_of` get_message_up_to message e2 events.

(** A record of the timing stream: a non-empty run of characters free of
    whitespace. *)
Definition nonblank {char : Type} (isspace : char → bool) (v : list char)
  : Prop :=
  v ≠ [] ∧ Forall (λ ch, isspace ch = false) v.

(** * Properties *)

(** ** Arithmetic of full reads *)

Lemma div_zero_lt n c : 1 ≤ c → n / c = 0 → n < c.
Proof.
  intros Hc H. apply Nat.div_small_iff in H; lia.
Qed.

Lemma div_succ_ge n c k : 1 ≤ c → n / c = S k → c ≤ n ∧ (n - c) / c = k.
Proof.
  intros Hc H.
  assert (c ≤ n) as Hle.
  { destruct (Nat.lt_ge_cases n c) as [Hlt|]; [|done].
    rewrite Nat.div_small in H by done. discriminate. }
  split; [done|].
  replace n with ((n - c) + 1 * c) in H by lia.
  rewrite Nat.div_add in H by lia. lia.
Qed.

Lemma ceil_div_inexact n c :
  1 ≤ c → n mod c ≠ 0 → ceil_div n c = n / c + 1.
Proof.
  intros Hc Hm. unfold ceil_div.
  pose proof (Nat.div_mod n c ltac:(lia)) as Hn.
  pose proof (Nat.mod_upper_bound n c ltac:(lia)) as Hb.
  symmetry. apply Nat.div_unique with (r := n mod c - 1); lia.
Qed.

Lemma ceil_div_exact n c :
  1 ≤ c → n mod c = 0 → ceil_div n c = n / c.
Proof.
  intros Hc Hm. unfold ceil_div.
  pose proof (Nat.div_mod n c ltac:(lia)) as Hn.
  symmetry. apply Nat.div_unique with (r := c - 1); lia.
Qed.

(** ** One step of the generator *)

Section GeneratorSteps.

Variable c : nat.
Variable f : bytes → bytes.

Lemma length_take_full (d : bytes) :
  c ≤ length d → length (take c d) = c.
Proof. intros. rewrite length_take. lia. Qed.

Lemma take_short (d : bytes) : length d < c → take c d = d.
Proof. intros. apply take_ge. lia. Qed.

(** A full read: a non-final chunk, and the generator stays reading. *)
Lemma anext_full g d r cl :
  reading g → 1 ≤ c → c ≤ length d →
  ∃ g', reading g' ∧
    anext c f g (mkStream d r cl)
    = (Yielded (mkChunk (f (take c d)) false), g',
       mkStream (drop c d) (S r) cl).
Proof.
  intros Hg Hc Hd.
  assert ((length (take c d) =? c) = true) as Hfull.
  { apply Nat.eqb_eq. by apply length_take_full. }
  destruct Hg as [-> | [-> | ->]]; cbn; rewrite Hfull; cbn;
    eexists; (split; [|reflexivity]); unfold reading; auto.
Qed.

(** A short read: the final chunk, and the generator is at a final
    [yield]. *)
Lemma anext_short g d r cl :
  reading g → length d < c →
  ∃ g', (g' = Yield102 ∨ g' = Yield109) ∧
    anext c f g (mkStream d r cl)
    = (Yielded (mkChunk (f d) true), g', mkStream [] (S r) cl).
Proof.
  intros Hg Hd.
  assert ((length (take c d) =? c) = false) as Hshort.
  { apply Nat.eqb_neq. rewrite take_short by done. lia. }
  assert (drop c d = []) as Hdrop by (apply drop_ge; lia).
  destruct Hg as [-> | [-> | ->]]; cbn; rewrite Hshort, Hdrop; cbn;
    rewrite ?firstn_all, take_short by done;
    eexists; (split; [|reflexivity]); auto.
Qed.

(** At a final [yield], and ever after, a pull only stops. *)
Lemma anext_stopped g s :
  stopped g → anext c f g s = (StopAsyncIteration, Finished, s).
Proof. intros [-> | [-> | ->]]; reflexivity. Qed.

Lemma pulls_unfold n g s :
  pulls c f (S n) g s
  = (let '(p, g1, s1) := anext c f g s in
     let '(ps, g2, s2) := pulls c f n g1 s1 in
     (p :: ps, g2, s2)).
Proof. reflexivity. Qed.

Lemma pulls_stopped n g s :
  stopped g →
  pulls c f (S n) g s = (replicate (S n) StopAsyncIteration, Finished, s).
Proof.
  revert g. induction n as [|n IH]; intros g Hg.
  - cbn. by rewrite anext_stopped.
  - rewrite pulls_unfold, anext_stopped by done.
    rewrite IH by (unfold stopped; auto). reflexivity.
Qed.

Lemma pulls_stopped_results n g s :
  stopped g →
  (pulls c f n g s).1.1 = replicate n StopAsyncIteration ∧
  (pulls c f n g s).2 = s.
Proof.
  intros Hg. destruct n as [|n]; [done|].
  by rewrite pulls_stopped.
Qed.

Lemma pulls_app a : ∀ b g s,
  pulls c f (a + b) g s
  = (let '(ps1, g1, s1) := pulls c f a g s in
     let '(ps2, g2, s2) := pulls c f b g1 s1 in
     (ps1 ++ ps2, g2, s2)).
Proof.
  induction a as [|a IH]; intros b g s.
  - cbn. by destruct (pulls c f b g s) as [[? ?] ?].
  - change (S a + b) with (S (a + b)). rewrite !pulls_unfold.
    destruct (anext c f g s) as [[p g1] s1].
    rewrite IH.
    destruct (pulls c f a g1 s1) as [[ps1 g2] s2].
    by destruct (pulls c f b g2 s2) as [[ps2 g3] s3].
Qed.

(** A step never closes the stream, and reads at most once. *)
Lemma anext_counters g s :
  closes (anext c f g s).2 = closes s ∧
  reads s ≤ reads (anext c f g s).2 ≤ S (reads s).
Proof.
  destruct g; cbn; try destruct (negb _); cbn; lia.
Qed.

Lemma pulls_closes n g s : closes (pulls c f n g s).2 = closes s.
Proof.
  revert g s. induction n as [|n IH]; intros g s; [done|].
  cbn [pulls].
  pose proof (anext_counters g s) as [Hcl _].
  destruct (anext c f g s) as [[p g1] s1]. cbn in Hcl.
  specialize (IH g1 s1).
  destruct (pulls c f n g1 s1) as [[ps g2] s2]. cbn in *. congruence.
Qed.

(** The whole run from a reading state. *)
Lemma consume_reading k : ∀ g d r cl fuel,
  1 ≤ c → reading g → length d / c = k → k + 2 ≤ fuel →
  consume c f fuel g (mkStream d r cl)
  = Some (chunks_from c f k d, mkStream [] (r + k + 1) cl).
Proof.
  induction k as [|k IH]; intros g d r cl fuel Hc Hg Hk Hfuel.
  - apply div_zero_lt in Hk; [|done].
    destruct (anext_short g d r cl Hg Hk) as (g' & Hg' & Hstep).
    destruct fuel as [|[|fuel]]; [lia..|].
    cbn [consume]. rewrite Hstep.
    rewrite anext_stopped by (unfold stopped; tauto). cbn.
    do 3 f_equal. lia.
  - apply div_succ_ge in Hk as [Hle Hk]; [|done].
    destruct (anext_full g d r cl Hg Hc Hle) as (g' & Hg' & Hstep).
    destruct fuel as [|fuel]; [lia|].
    cbn [consume]. rewrite Hstep.
    rewrite (IH g' (drop c d) (S r) cl fuel) by (rewrite ?length_drop; (done || lia)).
    cbn. do 3 f_equal. lia.
Qed.

(** The pulls of the whole run. *)
Lemma pulls_reading k : ∀ g d r cl,
  1 ≤ c → reading g → length d / c = k →
  ∃ g', stopped g' ∧
    pulls c f (S k) g (mkStream d r cl)
    = (map Yielded (chunks_from c f k d), g', mkStream [] (r + k + 1) cl).
Proof.
  induction k as [|k IH]; intros g d r cl Hc Hg Hk.
  - apply div_zero_lt in Hk; [|done].
    destruct (anext_short g d r cl Hg Hk) as (g' & Hg' & Hstep).
    exists g'. split; [unfold stopped; tauto|].
    rewrite pulls_unfold, Hstep. cbn. do 2 f_equal. lia.
  - apply div_succ_ge in Hk as [Hle Hk]; [|done].
    destruct (anext_full g d r cl Hg Hc Hle) as (g' & Hg' & Hstep).
    destruct (IH g' (drop c d) (S r) cl Hc Hg') as (g'' & Hg'' & Hrun).
    { by rewrite length_drop. }
    exists g''. split; [done|].
    rewrite pulls_unfold, Hstep, Hrun. cbn. do 2 f_equal. lia.
Qed.

End GeneratorSteps.

(** ** The shape of a run *)

Section RunShape.

Variable c : nat.
Variable f : bytes → bytes.

Lemma chunks_from_full k : ∀ d,
  chunks_from c f k d
  = full_chunks c f k d ++ [mkChunk (f (drop (k * c) d)) true].
Proof.
  induction k as [|k IH]; intros d; [done|].
  cbn [chunks_from full_chunks]. rewrite IH, drop_drop.
  by replace (S k * c) with (c + k * c) by lia.
Qed.

Lemma length_full_chunks k : ∀ d, length (full_chunks c f k d) = k.
Proof. induction k; intros; cbn; auto. Qed.

Lemma full_chunks_not_last k : ∀ d,
  Forall (λ ch, is_last_chunk ch = false) (full_chunks c f k d).
Proof. induction k; intros; cbn; constructor; auto. Qed.

Lemma final_chunks_full_chunks k : ∀ d,
  final_chunks (full_chunks c f k d) = [].
Proof.
  induction k as [|k IH]; intros d; [done|].
  cbn [full_chunks]. unfold final_chunks in *.
  rewrite filter_cons_False by (cbn; discriminate). apply IH.
Qed.

Lemma final_chunks_chunks_from k d :
  final_chunks (chunks_from c f k d)
  = [mkChunk (f (drop (k * c) d)) true].
Proof.
  rewrite chunks_from_full.
  pose proof (final_chunks_full_chunks k d) as Hfull.
  unfold final_chunks in *.
  by rewrite filter_app, Hfull, filter_cons_True, filter_nil.
Qed.

End RunShape.

Lemma full_chunks_length c k : ∀ d : bytes,
  k * c ≤ length d →
  Forall (λ ch, length (chunk ch) = c) (full_chunks c (λ x, x) k d).
Proof.
  induction k as [|k IH]; intros d Hd; cbn; constructor.
  - cbn. rewrite length_take. lia.
  - apply IH. rewrite length_drop. lia.
Qed.

(** ** The chunk producer *)

(** C1, as amended.  For a chunk size [c >= 1] and a stream of [n] bytes the
    generator yields exactly [n / c + 1] chunks, which is [ceil(n/c)] when
    [c] does not divide [n] and the one empty final chunk when [n = 0];
    every non-final chunk holds exactly [c] bytes and the final chunk holds
    [n mod c] bytes. *)
Theorem chunk_generator_chunk_count (c : nat) (s : Stream) :
  1 ≤ c →
  let n := length (data s) in
  ∃ chunks s',
    (∀ fuel, n / c + 2 ≤ fuel →
       consume c (λ x, x) fuel Created s = Some (chunks, s')) ∧
    length chunks = n / c + 1 ∧
    (n mod c ≠ 0 → length chunks = ceil_div n c) ∧
    (n = 0 → chunks = [mkChunk [] true]) ∧
    (∀ ch, ch ∈ chunks → is_last_chunk ch = false → length (chunk ch) = c) ∧
    (∃ fin, last chunks = Some fin ∧ is_last_chunk fin = true ∧
            length (chunk fin) = n mod c).
Proof.
  intros Hc n. destruct s as [d r cl]. cbn in n.
  exists (chunks_from c (λ x, x) (n / c) d), (mkStream [] (r + n / c + 1) cl).
  assert (c * (n / c) ≤ n) as Hle by (apply Nat.Div0.mul_div_le).
  split; [|split; [|split; [|split; [|split]]]].
  - intros fuel Hfuel. apply consume_reading; unfold reading; auto.
  - rewrite chunks_from_full, length_app, length_full_chunks. cbn. lia.
  - intros Hm. rewrite chunks_from_full, length_app, length_full_chunks.
    rewrite ceil_div_inexact by done. cbn. lia.
  - intros Hn. apply length_zero_iff_nil in Hn. subst d.
    subst n. cbn [length]. rewrite Nat.Div0.div_0_l. reflexivity.
  - intros ch Hin Hnl. rewrite chunks_from_full in Hin.
    apply elem_of_app in Hin as [Hin | Hin].
    + pose proof (full_chunks_length c (n / c) d ltac:(lia)) as Hall.
      rewrite Forall_forall in Hall. by apply Hall.
    + apply list_elem_of_singleton in Hin. subst ch. discriminate.
  - eexists. rewrite chunks_from_full, last_snoc.
    split; [done|]. split; [done|]. cbn.
    rewrite length_drop. fold n. rewrite (Nat.Div0.mod_eq n c). lia.
Qed.

Lemma chunk_generator_chunk_count_witness :
  1 ≤ 2 ∧
  ∃ chunks s',
    (∀ fuel, 3 ≤ fuel →
       consume 2 (λ x, x) fuel Created (open_stream [x00; x00; x00])
       = Some (chunks, s')) ∧
    length chunks = 2 ∧
    (3 mod 2 ≠ 0 → length chunks = ceil_div 3 2) ∧
    (3 = 0 → chunks = [mkChunk [] true]) ∧
    (∀ ch, ch ∈ chunks → is_last_chunk ch = false → length (chunk ch) = 2) ∧
    (∃ fin, last chunks = Some fin ∧ is_last_chunk fin = true ∧
            length (chunk fin) = 1).
Proof.
  split; [lia|].
  apply (chunk_generator_chunk_count 2 (open_stream [x00; x00; x00])). lia.
Defined.

(** C1 fails as stated: two bytes read in chunks of two give a full non-final
    chunk and then an empty final one, two chunks and not [ceil(2/2) = 1]. *)
Lemma ceil_chunking_exact_multiple : ¬ ceil_chunking 2 [x00; x00].
Proof.
  intros H.
  destruct (H 3 [mkChunk [x00; x00] false; mkChunk [] true]
              (mkStream [] 2 0) eq_refl) as (Hcount & _).
  specialize (Hcount ltac:(cbn; lia)). vm_compute in Hcount. discriminate.
Qed.

(** C3.  For a chunk size [c >= 1] the generator's run is a list of non-final
    chunks followed by one final chunk: exactly one chunk is flagged final,
    it is the last one, and every pull after it yields nothing. *)
Theorem chunk_generator_single_final (c : nat) (f : bytes → bytes)
    (s : Stream) :
  1 ≤ c →
  ∃ init fin s',
    (∀ fuel, length (data s) / c + 2 ≤ fuel →
       consume c f fuel Created s = Some (init ++ [fin], s')) ∧
    Forall (λ ch, is_last_chunk ch = false) init ∧
    is_last_chunk fin = true ∧
    final_chunks (init ++ [fin]) = [fin] ∧
    (∀ m, (pulls c f (length (init ++ [fin]) + m) Created s).1.1
          = map Yielded (init ++ [fin]) ++ replicate m StopAsyncIteration).
Proof.
  intros Hc. destruct s as [d r cl]. cbn [data].
  set (k := length d / c).
  exists (full_chunks c f k d), (mkChunk (f (drop (k * c) d)) true),
    (mkStream [] (r + k + 1) cl).
  rewrite <- chunks_from_full.
  split; [|split; [|split; [|split]]].
  - intros fuel Hfuel. apply consume_reading; unfold reading; auto.
  - apply full_chunks_not_last.
  - done.
  - apply final_chunks_chunks_from.
  - intros m.
    destruct (pulls_reading c f k Created d r cl Hc) as (g' & Hg' & Hrun);
      [unfold reading; auto | done |].
    rewrite chunks_from_full at 1.
    rewrite length_app, length_full_chunks. cbn [length].
    replace (k + 1 + m) with (S k + m) by lia.
    rewrite pulls_app, Hrun.
    pose proof (pulls_stopped_results c f m g' (mkStream [] (r + k + 1) cl) Hg')
      as [Hps _].
    destruct (pulls c f m g' _) as [[ps g2] s2]. cbn in *. by subst ps.
Qed.

Lemma chunk_generator_single_final_witness :
  1 ≤ 2 ∧
  ∃ init fin s',
    (∀ fuel, 3 ≤ fuel →
       consume 2 (λ x, x) fuel Created (open_stream [x00; x00; x00])
       = Some (init ++ [fin], s')) ∧
    Forall (λ ch, is_last_chunk ch = false) init ∧
    is_last_chunk fin = true ∧
    final_chunks (init ++ [fin]) = [fin] ∧
    (∀ m, (pulls 2 (λ x, x) (length (init ++ [fin]) + m) Created
             (open_stream [x00; x00; x00])).1.1
          = map Yielded (init ++ [fin]) ++ replicate m StopAsyncIteration).
Proof.
  split; [lia|].
  apply (chunk_generator_single_final 2 (λ x, x)
           (open_stream [x00; x00; x00])). lia.
Defined.

(** C8.  Once a pull has yielded the final chunk, every further pull on the
    generator raises the end-of-iteration exception: it yields no chunk,
    issues no read, and the generator stays finished. *)
Theorem pull_after_final_chunk (c : nat) (f : bytes → bytes)
    (g g' : GenState) (s s' : Stream) (ch : ChunkResult) :
  anext c f g s = (Yielded ch, g', s') →
  is_last_chunk ch = true →
  ∀ n, pulls c f (S n) g' s'
       = (replicate (S n) StopAsyncIteration, Finished, s').
Proof.
  intros Hstep Hlast n. apply pulls_stopped.
  destruct g; cbn in Hstep; try destruct (negb _); inversion Hstep; subst;
    cbn in Hlast; try discriminate; unfold stopped; auto.
Qed.

Lemma pull_after_final_chunk_witness :
  anext 2 (λ x, x) Yield113 (mkStream [x00] 1 0)
  = (Yielded (mkChunk [x00] true), Yield109, mkStream [] 2 0) ∧
  is_last_chunk (mkChunk [x00] true) = true ∧
  ∀ n, pulls 2 (λ x, x) (S n) Yield109 (mkStream [] 2 0)
       = (replicate (S n) StopAsyncIteration, Finished, mkStream [] 2 0).
Proof.
  split; [reflexivity|]. split; [reflexivity|].
  apply (pull_after_final_chunk 2 (λ x, x) Yield113 Yield109
           (mkStream [x00] 1 0) (mkStream [] 2 0) (mkChunk [x00] true));
    reflexivity.
Defined.

(** ** The frame transform *)

Section Transform.

Variable c : nat.
Variable f : bytes → bytes.

(** A pull of the generator with [f] is the pull of the generator with the
    default transform, with [f] applied to the chunk it yields. *)
Lemma anext_transformed g s :
  anext c f g s
  = (let '(p, g', s') := anext c (λ x, x) g s in
     (transformed_pull f p, g', s')).
Proof.
  destruct g; cbn; try destruct (negb _); reflexivity.
Qed.

Lemma consume_transformed fuel : ∀ g s,
  consume c f fuel g s
  = (λ '(cs, s'), (map (transformed f) cs, s'))
      <$> consume c (λ x, x) fuel g s.
Proof.
  induction fuel as [|fuel IH]; intros g s; [done|].
  cbn [consume]. rewrite anext_transformed.
  destruct (anext c (λ x, x) g s) as [[[ch|] g'] s']; cbn; [|done].
  rewrite IH.
  by destruct (consume c (λ x, x) fuel g' s') as [[cs s'']|].
Qed.

End Transform.

(** C7.  The transform is applied to the payload of every chunk the generator
    yields, final or not, and leaves each flag as it was; when the
    configuration does not ask for WAV encoding the transform is the
    identity and the run is the untransformed run, chunk for chunk; when it
    does, the transform is [encode_as_wav] with the configuration, and the
    run is the untransformed run with every payload encoded. *)
Theorem chunk_transform_uniform :
  (∀ c f fuel g s,
     consume c f fuel g s
     = (λ '(cs, s'), (map (transformed f) cs, s'))
         <$> consume c (λ x, x) fuel g s) ∧
  (∀ f ch, is_last_chunk (transformed f ch) = is_last_chunk ch ∧
           chunk (transformed f ch) = f (chunk ch)) ∧
  (∀ encode_as_wav config,
     should_encode_as_wav config = false →
     ∀ c fuel g s,
       consume c (output_transform encode_as_wav config) fuel g s
       = consume c (λ x, x) fuel g s) ∧
  (∀ (char E Client : Type) isspace decode json_loads encode_as_wav
     (self : PollySynthesizer Client) (text : list char) chunk_size
     audio speech_marks (r : SynthesisResult char),
     should_encode_as_wav (synthesizer_config self) = false →
     (create_speech_with_cache (E:=E) isspace decode json_loads
        encode_as_wav self text chunk_size audio speech_marks).2 = ok r →
     generator_chunk_transform r = (λ x, x) ∧
     generator_chunk_size r = chunk_size ∧
     generator_state r = Created ∧
     audio_stream r = open_stream audio) ∧
  (∀ encode_as_wav config,
     should_encode_as_wav config = true →
     ∀ c fuel g s,
       consume c (output_transform encode_as_wav config) fuel g s
       = (λ '(cs, s'),
            (map (transformed (λ chunk, encode_as_wav chunk config)) cs, s'))
           <$> consume c (λ x, x) fuel g s) ∧
  (∀ (char E Client : Type) isspace decode json_loads encode_as_wav
     (self : PollySynthesizer Client) (text : list char) chunk_size
     audio speech_marks (r : SynthesisResult char),
     should_encode_as_wav (synthesizer_config self) = true →
     (create_speech_with_cache (E:=E) isspace decode json_loads
        encode_as_wav self text chunk_size audio speech_marks).2 = ok r →
     generator_chunk_transform r
     = (λ chunk, encode_as_wav chunk (synthesizer_config self)) ∧
     generator_chunk_size r = chunk_size ∧
     generator_state r = Created ∧
     audio_stream r = open_stream audio).
Proof.
  split; [|split; [|split; [|split; [|split]]]].
  - intros. apply consume_transformed.
  - done.
  - intros enc config Hwav c fuel g s.
    unfold output_transform. by rewrite Hwav.
  - intros char E Client isspace decode json_loads enc self text chunk_size
      audio speech_marks r Hwav.
    unfold create_speech_with_cache. cbn [snd].
    destruct (parse_word_events _ _ _ _) as [e | events]; cbn; [done|].
    intros [= <-]. cbn. unfold output_transform. by rewrite Hwav.
  - intros enc config Hwav c fuel g s.
    unfold output_transform. rewrite Hwav. apply consume_transformed.
  - intros char E Client isspace decode json_loads enc self text chunk_size
      audio speech_marks r Hwav.
    unfold create_speech_with_cache. cbn [snd].
    destruct (parse_word_events _ _ _ _) as [e | events]; cbn; [done|].
    intros [= <-]. cbn. unfold output_transform. by rewrite Hwav.
Qed.

Lemma chunk_transform_uniform_witness :
  should_encode_as_wav (mkConfig 8000 "en-US" "Joanna" false) = false ∧
  consume 2 (output_transform (λ b _, x00 :: b)
               (mkConfig 8000 "en-US" "Joanna" false))
    3 Created (open_stream [x00; x00; x00])
  = consume 2 (λ x, x) 3 Created (open_stream [x00; x00; x00]) ∧
  should_encode_as_wav (mkConfig 8000 "en-US" "Joanna" true) = true ∧
  consume 2 (output_transform (λ b _, x00 :: b)
               (mkConfig 8000 "en-US" "Joanna" true))
    3 Created (open_stream [x00; x00; x00])
  = (λ '(cs, s'),
       (map (transformed
               (λ chunk, (λ b (_ : PollySynthesizerConfig), x00 :: b) chunk
                           (mkConfig 8000 "en-US" "Joanna" true))) cs, s'))
      <$> consume 2 (λ x, x) 3 Created (open_stream [x00; x00; x00]).
Proof.
  split; [reflexivity|].
  split.
  - apply (proj1 (proj2 (proj2 chunk_transform_uniform))). reflexivity.
  - split; [reflexivity|].
    apply (proj1 (proj2 (proj2 (proj2 (proj2 chunk_transform_uniform))))).
    reflexivity.
Defined.

(** ** Abandoning the generator *)

(** C9, as amended.  After any number of pulls, closing the generator leaves
    the stream as it is; from then on no pull yields a chunk or reads from
    the stream, and the generator itself never closes the stream: its close
    count is the one it started with. *)
Theorem abandon_stops_production (c : nat) (f : bytes → bytes) (n : nat)
    (g : GenState) (s : Stream) :
  let '(_, g1, s1) := pulls c f n g s in
  let '(g2, s2) := aclose g1 s1 in
  s2 = s1 ∧
  closes s2 = closes s ∧
  ∀ m, (pulls c f m g2 s2).1.1 = replicate m StopAsyncIteration ∧
       (pulls c f m g2 s2).2 = s2.
Proof.
  pose proof (pulls_closes c f n g s) as Hcl.
  destruct (pulls c f n g s) as [[ps g1] s1]. cbn in *.
  split; [done|]. split; [done|].
  intros m. apply pulls_stopped_results. unfold stopped. auto.
Qed.

(** C9 fails as stated: one chunk pulled out of three and the generator
    closed, and the stream has not been closed once. *)
Lemma released_once_fails :
  ¬ released_once 1 (λ x, x) [x00; x00; x00] 1.
Proof. vm_compute. discriminate. Qed.

(** ** The alignment *)

(** *** Rounding to binary64 is monotone *)

Section Rounding.

Local Open Scope Q_scope.

Lemma pow2_pos (k : Z) : 0 < 2 ^ k.
Proof. apply Qpower_0_lt. reflexivity. Qed.

Lemma pow2_le (k k' : Z) : (k <= k')%Z -> 2 ^ k <= 2 ^ k'.
Proof. intros H. apply Qpower_le_compat_l; [done|]. discriminate. Qed.

Lemma pow2_lt (k k' : Z) : (k < k')%Z -> 2 ^ k < 2 ^ k'.
Proof. intros H. apply Qpower_lt_compat_l; [done|]. reflexivity. Qed.

Lemma pow2_plus (a b : Z) : 2 ^ (a + b) == 2 ^ a * 2 ^ b.
Proof. apply Qpower_plus. discriminate. Qed.

Lemma pow2_succ (k : Z) : 2 ^ (k + 1) == 2 * 2 ^ k.
Proof. rewrite pow2_plus. change (2 ^ 1) with 2. ring. Qed.

Lemma pow2_inject (k : Z) : (0 <= k)%Z -> inject_Z (2 ^ k) == 2 ^ k.
Proof. intros H. by rewrite Zpower_Qpower. Qed.

Lemma Qlog2_floor_spec (a : Q) :
  0 < a -> 2 ^ Qlog2_floor a <= a /\ a < 2 ^ (Qlog2_floor a + 1).
Proof.
  intros Ha. destruct a as [n d].
  assert (0 < n)%Z as Hn by (unfold Qlt in Ha; cbn in Ha; lia).
  unfold Qlog2_floor. cbn [Qnum Qden].
  set (ln := Z.log2 n). set (ld := Z.log2 (Z.pos d)).
  destruct (Z.log2_spec n Hn) as [Hn1 Hn2].
  destruct (Z.log2_spec (Z.pos d) ltac:(lia)) as [Hd1 Hd2].
  fold ln in Hn1, Hn2. fold ld in Hd1, Hd2.
  assert (0 <= ln)%Z as Hln by apply Z.log2_nonneg.
  assert (0 <= ld)%Z as Hld by apply Z.log2_nonneg.
  rewrite Zle_Qle, pow2_inject in Hn1 by done.
  rewrite Zlt_Qlt, pow2_inject in Hn2 by lia.
  rewrite Zle_Qle, pow2_inject in Hd1 by done.
  rewrite Zlt_Qlt, pow2_inject in Hd2 by lia.
  change (Z.succ ln) with (ln + 1)%Z in Hn2.
  change (Z.succ ld) with (ld + 1)%Z in Hd2.
  rewrite pow2_succ in Hn2, Hd2.
  pose proof (pow2_pos ln) as HA. pose proof (pow2_pos ld) as HD.
  assert (2 ^ (ln - ld) * 2 ^ ld == 2 ^ ln) as Hk.
  { rewrite <- pow2_plus. by replace (ln - ld + ld)%Z with ln by lia. }
  pose proof (pow2_pos (ln - ld)) as HK.
  assert ((n # d) * inject_Z (Z.pos d) == inject_Z n) as Ha'.
  { unfold Qeq, Qmult, inject_Z. cbn. lia. }
  set (a := n # d) in *. set (N := inject_Z n) in *.
  set (Dd := inject_Z (Z.pos d)) in *.
  set (A := 2 ^ ln) in *. set (D := 2 ^ ld) in *. set (K := 2 ^ (ln - ld)) in *.
  assert (a < 2 * K) as Hup.
  { apply Qnot_le_lt. intros Hle. 
    assert (2 * K * Dd <= a * Dd) by (apply Qmult_le_compat_r; [done|lra]).
    assert (2 * K * D <= 2 * K * Dd) by nra. nra. }
  assert (K < 2 * a) as Hlow.
  { apply Qnot_le_lt. intros Hle.
    assert (2 * a * Dd <= K * Dd) by (apply Qmult_le_compat_r; [done|lra]).
    assert (K * Dd < K * (2 * D)) by nra. nra. }
  destruct (Qle_bool K a) eqn:Hb.
  - apply Qle_bool_iff in Hb. split; [done|]. rewrite pow2_succ. done.
  - assert (a < K) as Hlt.
    { apply Qnot_le_lt. intros Hle. apply Qle_bool_iff in Hle. congruence. }
    replace (ln - ld - 1 + 1)%Z with (ln - ld)%Z by lia.
    split; [|done].
    assert (2 * 2 ^ (ln - ld - 1) == K) as Hhalf.
    { rewrite <- pow2_succ. by replace (ln - ld - 1 + 1)%Z with (ln - ld)%Z by lia. }
    lra.
Qed.

Lemma Qlog2_floor_mono (a b : Q) :
  0 < a -> a <= b -> (Qlog2_floor a <= Qlog2_floor b)%Z.
Proof.
  intros Ha Hab.
  destruct (Qlog2_floor_spec a Ha) as [Ha1 _].
  destruct (Qlog2_floor_spec b ltac:(lra)) as [_ Hb2].
  apply Z.lt_succ_r. apply Qpower_lt_compat_l_inv with (q := 2); [|reflexivity].
  change (Z.succ (Qlog2_floor b)) with (Qlog2_floor b + 1)%Z. lra.
Qed.

Lemma round_half_even_range (x : Q) :
  (Qfloor x <= round_half_even x <= Qfloor x + 1)%Z.
Proof.
  unfold round_half_even.
  destruct (_ ?= _); [destruct (Z.even _)|..]; lia.
Qed.

Lemma round_half_even_mono (x y : Q) :
  x <= y -> (round_half_even x <= round_half_even y)%Z.
Proof.
  intros Hxy.
  pose proof (Qfloor_resp_le x y Hxy) as Hfloor.
  pose proof (round_half_even_range x) as Hx.
  pose proof (round_half_even_range y) as Hy.
  destruct (Z.eq_dec (Qfloor x) (Qfloor y)) as [Heq | Hne]; [|lia].
  clear Hx Hy. unfold round_half_even. rewrite <- Heq.
  destruct (Qcompare_spec (x - inject_Z (Qfloor x)) (1 # 2)) as [Hx | Hx | Hx];
    destruct (Qcompare_spec (y - inject_Z (Qfloor x)) (1 # 2)) as [Hy | Hy | Hy];
    try destruct (Z.even _); try lia; exfalso; lra.
Qed.

Lemma round_half_even_Z (n : Z) : round_half_even (inject_Z n) = n.
Proof.
  unfold round_half_even. rewrite Qfloor_Z.
  destruct (Qcompare_spec (inject_Z n - inject_Z n) (1 # 2));
    [exfalso; lra | done | exfalso; lra].
Qed.

Lemma ulp_exponent_mono (a b : Q) :
  0 < a -> a <= b -> (ulp_exponent a <= ulp_exponent b)%Z.
Proof.
  intros Ha Hab. unfold ulp_exponent.
  pose proof (Qlog2_floor_mono a b Ha Hab). lia.
Qed.

Lemma round_magnitude_nonneg (a : Q) : 0 < a -> 0 <= round_magnitude a.
Proof.
  intros Ha. unfold round_magnitude.
  pose proof (pow2_pos (ulp_exponent a)) as He.
  assert (inject_Z 0 <= a / 2 ^ ulp_exponent a) as Hq.
  { apply Qle_shift_div_l; [done|]. change (inject_Z 0) with 0. lra. }
  apply round_half_even_mono in Hq. rewrite round_half_even_Z in Hq.
  rewrite Zle_Qle in Hq. change (inject_Z 0) with 0 in Hq.
  apply Qmult_le_0_compat; [done|lra].
Qed.

Lemma round_magnitude_mono (a b : Q) :
  0 < a -> a <= b -> round_magnitude a <= round_magnitude b.
Proof.
  intros Ha Hab.
  assert (0 < b) as Hb by lra.
  pose proof (ulp_exponent_mono a b Ha Hab) as He.
  unfold round_magnitude.
  set (ea := ulp_exponent a) in *. set (eb := ulp_exponent b) in *.
  pose proof (pow2_pos ea) as Hpa. pose proof (pow2_pos eb) as Hpb.
  destruct (Z.eq_dec ea eb) as [Heq | Hne].
  - rewrite <- Heq.
    assert (a / 2 ^ ea <= b / 2 ^ ea) as Hq.
    { apply Qle_shift_div_l; [done|].
      unfold Qdiv. rewrite <- Qmult_assoc, (Qmult_comm (/ _)), Qmult_inv_r; lra. }
    apply round_half_even_mono in Hq. rewrite Zle_Qle in Hq.
    apply Qmult_le_compat_r; [done|lra].
  - assert (ea + 1 <= eb)%Z as Hlt by lia.
    (* the larger one is at least 2^52 ulps *)
    assert (eb = Qlog2_floor b - 52)%Z as Heb by (unfold eb, ulp_exponent in *; lia).
    destruct (Qlog2_floor_spec b Hb) as [Hb1 _].
    assert (2 ^ 52 * 2 ^ eb <= b) as Hb52.
    { rewrite <- pow2_plus. by replace (52 + eb)%Z with (Qlog2_floor b) by lia. }
    assert (inject_Z (2 ^ 52) <= b / 2 ^ eb) as Hqb.
    { apply Qle_shift_div_l; [done|]. by rewrite pow2_inject. }
    apply round_half_even_mono in Hqb. rewrite round_half_even_Z in Hqb.
    rewrite Zle_Qle, pow2_inject in Hqb by done.
    (* the smaller one is at most 2^53 ulps *)
    destruct (Qlog2_floor_spec a Ha) as [_ Ha2].
    assert (a <= 2 ^ 53 * 2 ^ ea) as Ha53.
    { rewrite <- pow2_plus.
      apply Qlt_le_weak. eapply Qlt_le_trans; [exact Ha2|].
      apply pow2_le. unfold ea, ulp_exponent. lia. }
    assert (a / 2 ^ ea <= inject_Z (2 ^ 53)) as Hqa.
    { apply Qle_shift_div_r; [done|]. by rewrite pow2_inject. }
    apply round_half_even_mono in Hqa. rewrite round_half_even_Z in Hqa.
    rewrite Zle_Qle, pow2_inject in Hqa by done.
    assert (2 ^ 53 * 2 ^ ea <= 2 ^ 52 * 2 ^ eb) as Hstep.
    { rewrite <- !pow2_plus. apply pow2_le. lia. }
    set (ma := inject_Z (round_half_even (a / 2 ^ ea))) in *.
    set (mb := inject_Z (round_half_even (b / 2 ^ eb))) in *.
    apply Qle_trans with (2 ^ 53 * 2 ^ ea);
      [apply Qmult_le_compat_r; [done|lra]|].
    apply Qle_trans with (2 ^ 52 * 2 ^ eb); [done|].
    apply Qmult_le_compat_r; [done|lra].
Qed.

Lemma round64_mono (p q : Q) : p <= q -> fle (round64 p) (round64 q).
Proof.
  intros Hpq. unfold round64.
  destruct (Qcompare_spec p 0) as [Hp | Hp | Hp];
    destruct (Qcompare_spec q 0) as [Hq | Hq | Hq]; try (exfalso; lra).
  - cbn. lra.
  - pose proof (round_magnitude_nonneg q Hq).
    destruct (Qle_bool _ _); cbn; [done|lra].
  - pose proof (round_magnitude_nonneg (- p) ltac:(lra)).
    destruct (Qle_bool _ _); cbn; [done|lra].
  - pose proof (round_magnitude_mono (- q) (- p) ltac:(lra) ltac:(lra)) as Hm.
    destruct (Qle_bool (2 ^ 1024) (round_magnitude (- p))) eqn:Hbp; [done|].
    destruct (Qle_bool (2 ^ 1024) (round_magnitude (- q))) eqn:Hbq.
    + apply Qle_bool_iff in Hbq.
      assert (2 ^ 1024 <= round_magnitude (- p)) as Hc by lra.
      apply Qle_bool_iff in Hc. congruence.
    + cbn. lra.
  - pose proof (round_magnitude_nonneg (- p) ltac:(lra)).
    pose proof (round_magnitude_nonneg q Hq).
    destruct (Qle_bool _ _); destruct (Qle_bool _ _); cbn; try done. lra.
  - pose proof (round_magnitude_mono p q Hp Hpq) as Hm.
    destruct (Qle_bool (2 ^ 1024) (round_magnitude q)) eqn:Hbq;
      destruct (Qle_bool (2 ^ 1024) (round_magnitude p)) eqn:Hbp; cbn; try done.
    apply Qle_bool_iff in Hbp.
    assert (2 ^ 1024 <= round_magnitude q) as Hc by lra.
    apply Qle_bool_iff in Hc. congruence.
Qed.

End Rounding.

(** [float_mul] agrees with the primitive floats on these products: exact
    ones, rounded ones, ties, subnormals and overflows. *)
Example float_mul_agrees_examples :
  forallb (λ '(x, y), float_mul_agrees x y)
    [(0x1.23d70a3d70a3dp-1, 1000); (0x1.999999999999ap-4, 1000);
     (0x1p-3, 1000); (0x1.3333333333333p-2, 1000);
     (0x1.e240c9fbe76c9p+16, 1000); (-0x1.23d70a3d70a3dp-1, 1000);
     (0x1.6c8e5ca239029p+1016, 1000); (-0x1.6c8e5ca239029p+1016, 1000);
     (0x1.fffffffffffffp+1023, 1); (0x0.0000000000001p-1022, 1000);
     (0x0.0000000000001p-1022, 0x1p-1); (0x0.0000000000003p-1022, 0x1p-1);
     (0x1.0000000000001p+0, 0x1.0000000000001p+0); (0, 1000)]%float
  = true.
Proof. vm_compute. reflexivity. Qed.

Lemma int_gt_float_below (n : Z) (x y : fvalue) :
  fle x y → int_gt_float n y = true → int_gt_float n x = true.
Proof.
  destruct x as [|a|], y as [|b|]; cbn; try done.
  intros Hab. rewrite !negb_true_iff. intros Hb.
  destruct (Qle_bool (inject_Z n) a) eqn:Ha; [|done].
  apply Qle_bool_iff in Ha.
  assert (inject_Z n <= b)%Q as Hnb by (eapply Qle_trans; eauto).
  apply Qle_bool_iff in Hnb. congruence.
Qed.

Lemma later_than_earlier (event : WordEvent) (e1 e2 : Q) :
  (e1 <= e2)%Q → later_than event e2 = true → later_than event e1 = true.
Proof.
  intros Hle. unfold later_than, float_mul.
  apply int_gt_float_below, round64_mono.
  apply Qmult_le_compat_r; [done|]. discriminate.
Qed.

Section Alignment.

Context {char : Type}.
Implicit Types (message : list char) (events : list WordEvent).

Lemma slice_to_nonneg message (stop : Z) :
(0 ≤ stop)%Z → slice_to message stop = take (Z.to_nat stop) message.
Proof.
intros Hstop. unfold slice_to.
destruct (Z.ltb_spec stop 0) as [|_]; [lia|].
destruct (Z.le_gt_cases stop (Z.of_nat (length message))) as [Hle | Hgt].
- by rewrite Z.min_l.
- rewrite Z.min_r, Nat2Z.id by lia.
  rewrite firstn_all. symmetry. apply take_ge. lia.
Qed.

Lemma slice_to_prefix message (stop : Z) :
slice_to message stop `prefix_of` message.
Proof. apply prefix_take. Qed.

Lemma slice_to_past_end message (stop : Z) :
(Z.of_nat (length message) ≤ stop)%Z → slice_to message stop = message.
Proof.
intros Hstop. rewrite slice_to_nonneg by lia. apply take_ge. lia.
Qed.

Lemma slice_to_length message (stop : Z) :
(0 ≤ stop ≤ Z.of_nat (length message))%Z →
length (slice_to message stop) = Z.to_nat stop.
Proof.
intros Hstop. rewrite slice_to_nonneg, length_take by lia. lia.
Qed.

Lemma slice_to_mono message (a b : Z) :
(0 ≤ a ≤ b)%Z → slice_to message a `prefix_of` slice_to message b.
Proof.
intros Hab. rewrite !slice_to_nonneg by lia.
replace (take (Z.to_nat a) message)
  with (take (Z.to_nat a) (take (Z.to_nat b) message)).
- apply prefix_take.
- rewrite take_take. f_equal. lia.
Qed.

(** The scan stops at the first event later than the elapsed time. *)
Lemma get_message_up_to_first message seconds before : ∀ event after,
Forall (λ e, later_than e seconds = false) before →
later_than event seconds = true →
get_message_up_to message seconds (before ++ event :: after)
= slice_to message (start event).
Proof.
induction before as [|e before IH]; intros event after Hbefore Hevent; cbn.
- by rewrite Hevent.
- inversion Hbefore as [|? ? He Hrest]; subst.
  rewrite He. by apply IH.
Qed.


(** What the scan returns: the whole message, or the message cut at the
  [start] of one of the events. *)
Lemma get_message_up_to_cases message seconds events :
get_message_up_to message seconds events = message ∨
∃ event, event ∈ events ∧
  get_message_up_to message seconds events
  = slice_to message (start event).
Proof.
induction events as [|e events IH]; cbn; [by left|].
destruct (later_than e seconds).
- right. exists e. split; [left|done].
- destruct IH as [IH | (event & Hin & IH)]; [by left|].
  right. exists event. split; [by right|done].
Qed.

Lemma get_message_up_to_prefix message seconds events :
get_message_up_to message seconds events `prefix_of` message.
Proof.
destruct (get_message_up_to_cases message seconds events)
  as [-> | (event & _ & ->)]; [done|apply slice_to_prefix].
Qed.

(** Monotonicity needs the order of the [start] offsets only. *)
Lemma get_message_up_to_mono_starts message events (e1 e2 : Q) :
start_ordered events → (e1 <= e2)%Q →
get_message_up_to message e1 events
  `prefix_of` get_message_up_to message e2 events.
Proof.
intros [Hpos Hsorted] Hle.
induction events as [|e events IH]; cbn; [done|].
apply Forall_cons in Hpos as [Hpos_e Hpos].
apply StronglySorted_inv in Hsorted as [Hsorted Hbelow].
destruct (later_than e e2) eqn:H2.
- by rewrite (later_than_earlier e e1 e2 Hle H2).
- destruct (later_than e e1) eqn:H1; [|by apply IH].
  destruct (get_message_up_to_cases message e2 events)
    as [-> | (event & Hin & ->)]; [apply slice_to_prefix|].
  apply slice_to_mono. split; [done|].
  rewrite Forall_forall in Hbelow. by apply Hbelow.
Qed.

End Alignment.



(** The product is the rounded one: for the float nearest to 0.57 the
    product with 1000 is 570, so an event at 570 ms is not later and one at
    571 ms is. *)
Example get_message_up_to_rounded_product :
  fvalue_eqb (Some (float_mul (5134103575202365 # 9007199254740992) 1000))
    (Some (Real 570)) = true ∧
  get_message_up_to (Ascii7.str "hello world")
    (5134103575202365 # 9007199254740992) [mkEvent 570 6]
  = Ascii7.str "hello world" ∧
  get_message_up_to (Ascii7.str "hello world")
    (5134103575202365 # 9007199254740992) [mkEvent 571 6]
  = Ascii7.str "hello ".
Proof. vm_compute. done. Qed.

(** C4, as amended.  For events ordered by non-decreasing [time] whose
    [start] offsets are non-negative and also non-decreasing in list order,
    and elapsed times [e1 <= e2], the prefix returned for [e1] is a prefix of
    the one returned for [e2]. *)
Theorem get_message_up_to_monotone {char : Type} (message : list char)
    (events : list WordEvent) (e1 e2 : Q) :
  time_ordered events →
  start_ordered events →
  (e1 <= e2)%Q →
  get_message_up_to message e1 events
    `prefix_of` get_message_up_to message e2 events.
Proof.
  intros _. apply get_message_up_to_mono_starts.
Qed.

Lemma get_message_up_to_monotone_witness :
  time_ordered [mkEvent 0 0; mkEvent 500 6] ∧
  start_ordered [mkEvent 0 0; mkEvent 500 6] ∧
  (0 <= 1)%Q ∧
  get_message_up_to (Ascii7.str "hello world") 0 [mkEvent 0 0; mkEvent 500 6]
    `prefix_of`
  get_message_up_to (Ascii7.str "hello world") 1 [mkEvent 0 0; mkEvent 500 6].
Proof.
  assert (time_ordered [mkEvent 0 0; mkEvent 500 6]) as Htime.
  { unfold time_ordered. repeat constructor; cbn; lia. }
  assert (start_ordered [mkEvent 0 0; mkEvent 500 6]) as Hstart.
  { unfold start_ordered. split; repeat constructor; cbn; lia. }
  assert (0 <= 1)%Q as Hle by (unfold Qle; cbn; lia).
  split; [exact Htime|]. split; [exact Hstart|]. split; [exact Hle|].
  exact (get_message_up_to_monotone (Ascii7.str "hello world")
           [mkEvent 0 0; mkEvent 500 6] 0 1 Htime Hstart Hle).
Defined.

(** C4 fails as stated: with events in time order whose second word starts
    before the first, more elapsed time gives the shorter prefix ("hello"
    at 0 s, "he" at 0.125 s). *)
Lemma elapsed_monotone_needs_start_order :
  time_ordered [mkEvent 100 5; mkEvent 200 2] ∧
  ¬ elapsed_monotone (Ascii7.str "hello world")
      [mkEvent 100 5; mkEvent 200 2].
Proof.
  split.
  - unfold time_ordered. repeat constructor; cbn; lia.
  - intros H. specialize (H 0 (1 # 8))%Q.
    apply prefix_length in H; [|unfold Qle; cbn; lia].
    vm_compute in H. lia.
Qed.

(** C10.  [get_message_up_to] is a total function whose result is a prefix of
    the message, for events in any order and offsets of any size; when the
    first later event starts at or past the end of the message the result is
    the whole message. *)
Theorem get_message_up_to_total_prefix {char : Type} (message : list char)
    (seconds : Q) (events : list WordEvent) :
  get_message_up_to message seconds events `prefix_of` message ∧
  (∀ before event after,
     events = before ++ event :: after →
     Forall (λ e, later_than e seconds = false) before →
     later_than event seconds = true →
     (Z.of_nat (length message) ≤ start event)%Z →
     get_message_up_to message seconds events = message).
Proof.
  split; [apply get_message_up_to_prefix|].
  intros before event after -> Hbefore Hevent Hpast.
  rewrite get_message_up_to_first by done.
  by apply slice_to_past_end.
Qed.

Lemma get_message_up_to_total_prefix_witness :
  Forall (λ e, later_than e 0 = false) [mkEvent 0 0] ∧
  later_than (mkEvent 500 60) 0 = true ∧
  (Z.of_nat (length (Ascii7.str "hello world")) ≤ start (mkEvent 500 60))%Z ∧
  get_message_up_to (Ascii7.str "hello world") 0
    [mkEvent 0 0; mkEvent 500 60] = Ascii7.str "hello world".
Proof.
  assert (Forall (λ e, later_than e 0 = false) [mkEvent 0 0]) as Hbefore.
  { constructor; [reflexivity|constructor]. }
  assert ((Z.of_nat (length (Ascii7.str "hello world"))
           ≤ start (mkEvent 500 60))%Z) as Hpast.
  { cbn. lia. }
  split; [exact Hbefore|]. split; [reflexivity|]. split; [exact Hpast|].
  exact (proj2 (get_message_up_to_total_prefix (Ascii7.str "hello world") 0
                  [mkEvent 0 0; mkEvent 500 60])
           [mkEvent 0 0] (mkEvent 500 60) [] eq_refl Hbefore eq_refl Hpast).
Defined.

(** ** The constructor *)

(** C5.  [__init__] raises the exception carrying the configured rate exactly
    when the rate is neither 8000 nor 16000, and returns a synthesizer
    exactly when it is one of the two; either way no synthesis call has been
    made when it returns. *)
Theorem init_sampling_rate {Client : Type} (polly : Client)
    (config : PollySynthesizerConfig) :
  ((__init__ polly config).2
   = raise (Exception "Sampling rate not supported by AWS Polly"
              (sampling_rate config))
   ↔ sampling_rate config ≠ 8000%Z ∧ sampling_rate config ≠ 16000%Z) ∧
  ((∃ self, (__init__ polly config).2 = ok self)
   ↔ sampling_rate config = 8000%Z ∨ sampling_rate config = 16000%Z) ∧
  (∀ e, (__init__ polly config).2 = raise e →
        e = Exception "Sampling rate not supported by AWS Polly"
              (sampling_rate config)) ∧
  Forall (λ c, is_synthesis_call c = false) (__init__ polly config).1.
Proof.
  unfold __init__.
  destruct (decide (sampling_rate config ∉ [8000%Z; 16000%Z])) as [Hout | Hin];
    cbn [fst snd].
  - apply not_elem_of_cons in Hout as [H8 Hout].
    apply not_elem_of_cons in Hout as [H16 _].
    split; [|split; [|split]].
    + tauto.
    + split; [intros [self Hself]; discriminate | tauto].
    + intros e He. unfold raise in He. congruence.
    + repeat constructor.
  - apply dec_stable in Hin.
    rewrite !elem_of_cons, elem_of_nil in Hin.
    split; [|split; [|split]].
    + split; [discriminate | tauto].
    + split; [tauto | eauto].
    + discriminate.
    + repeat constructor.
Qed.

Lemma init_sampling_rate_witness :
  (sampling_rate (mkConfig 44100 "en-US" "Joanna" false) ≠ 8000%Z ∧
   sampling_rate (mkConfig 44100 "en-US" "Joanna" false) ≠ 16000%Z) ∧
  (__init__ tt (mkConfig 44100 "en-US" "Joanna" false)).2
  = raise (Exception "Sampling rate not supported by AWS Polly" 44100) ∧
  sampling_rate (mkConfig 16000 "en-US" "Joanna" false) = 16000%Z ∧
  ∃ self, (__init__ tt (mkConfig 16000 "en-US" "Joanna" false)).2 = ok self.
Proof.
  assert (sampling_rate (mkConfig 44100 "en-US" "Joanna" false) ≠ 8000%Z ∧
          sampling_rate (mkConfig 44100 "en-US" "Joanna" false) ≠ 16000%Z)
    as Hbad by (cbn; lia).
  split; [exact Hbad|].
  split.
  - exact (proj2 (proj1 (init_sampling_rate tt
                           (mkConfig 44100 "en-US" "Joanna" false))) Hbad).
  - split; [reflexivity|].
    exact (proj2 (proj1 (proj2 (init_sampling_rate tt
                                  (mkConfig 16000 "en-US" "Joanna" false))))
             (or_intror eq_refl)).
Defined.

(** ** Parsing the timing stream *)

Section Split.

Context {char : Type}.
Variable isspace : char → bool.

Lemma split_from_word (t : list char) : ∀ word s,
Forall (λ ch, isspace ch = false) t →
split_from isspace word (t ++ s) = split_from isspace (rev t ++ word) s.
Proof.
induction t as [|ch t IH]; intros word s Ht; [done|].
apply Forall_cons in Ht as [Hch Ht].
cbn [app split_from]. rewrite Hch, IH by done.
cbn [rev]. by rewrite <- app_assoc.
Qed.

Lemma rev_not_nil (t : list char) : t ≠ [] → rev t ≠ [].
Proof.
intros Ht Hrev. apply Ht.
rewrite <- (rev_involutive t), Hrev. reflexivity.
Qed.

Lemma split_nil : split isspace [] = [].
Proof. reflexivity. Qed.

Lemma split_space (w : char) (rest : list char) :
isspace w = true → split isspace (w :: rest) = split isspace rest.
Proof. intros Hw. unfold split. cbn. by rewrite Hw. Qed.

Lemma split_word (t : list char) :
nonblank isspace t → split isspace t = [t].
Proof.
intros [Hne Ht]. unfold split.
rewrite <- (app_nil_r t) at 1. rewrite split_from_word by done.
rewrite app_nil_r. cbn.
destruct (rev t) eqn:Hrev; [by apply rev_not_nil in Hne|].
by rewrite <- Hrev, rev_involutive.
Qed.

Lemma split_word_space (t : list char) (w : char) (rest : list char) :
nonblank isspace t → isspace w = true →
split isspace (t ++ w :: rest) = t :: split isspace rest.
Proof.
intros [Hne Ht] Hw. unfold split.
rewrite split_from_word by done.
rewrite app_nil_r. cbn. rewrite Hw.
destruct (rev t) eqn:Hrev; [by apply rev_not_nil in Hne|].
by rewrite <- Hrev, rev_involutive.
Qed.

(** Every token is a record: not empty, and without whitespace. *)
Lemma split_from_nonblank (s : list char) : ∀ word,
Forall (λ ch, isspace ch = false) word →
Forall (nonblank isspace) (split_from isspace word s).
Proof.
assert (∀ word, word ≠ [] → Forall (λ ch, isspace ch = false) word →
                nonblank isspace (rev word)) as Hrev.
{ intros word Hne Hword. split; [by apply rev_not_nil|].
  by apply Forall_rev. }
induction s as [|ch s IH]; intros word Hword; cbn.
- destruct word; constructor; [by apply Hrev|constructor].
- destruct (isspace ch) eqn:Hch.
  + destruct word; [by apply IH|].
    constructor; [by apply Hrev|by apply IH].
  + apply IH. by constructor.
Qed.

Lemma split_nonblank (s : list char) :
Forall (nonblank isspace) (split isspace s).
Proof. by apply split_from_nonblank. Qed.

End Split.

Section Loads.

Context {char E J : Type}.
Variable json_loads : list char → result E J.

Lemma loads_each_ok (vs : list (list char)) : ∀ events,
Forall (λ v, v ≠ []) vs →
(loads_each json_loads vs = ok events
 ↔ Forall2 (λ v event, json_loads v = ok event) vs events).
Proof.
induction vs as [|v vs IH]; intros events Hvs; cbn.
- split.
  + intros [= <-]. constructor.
  + by intros ->%Forall2_nil_inv_l.
- apply Forall_cons in Hvs as [Hv Hvs].
  destruct v as [|ch v]; [done|]. cbn [truthy].
  destruct (json_loads (ch :: v)) as [e | event] eqn:Hload; cbn.
  + split; [discriminate|].
    intros (? & ? & Hhead & _ & _)%Forall2_cons_inv_l.
    unfold ok in Hhead. congruence.
  + destruct (loads_each json_loads vs) as [e | events'] eqn:Hrest; cbn.
    * split; [discriminate|].
      intros (? & ? & _ & Htail & ->)%Forall2_cons_inv_l.
      apply IH in Htail; [|done]. discriminate.
    * split.
      -- intros [= <-]. constructor; [done|]. by apply IH.
      -- intros (? & ? & Hhead & Htail & ->)%Forall2_cons_inv_l.
         apply IH in Htail; [|done].
         unfold ok in *. congruence.
Qed.

Lemma loads_each_raise (before : list (list char)) : ∀ v after e,
Forall (λ v, v ≠ []) (before ++ v :: after) →
Forall (λ u, ∃ event, json_loads u = ok event) before →
json_loads v = raise e →
loads_each json_loads (before ++ v :: after) = raise e.
Proof.
induction before as [|u before IH]; intros v after e Hvs Hbefore Hv; cbn.
- apply Forall_cons in Hvs as [Hne _].
  destruct v; [done|]. cbn [truthy]. by rewrite Hv.
- cbn in Hvs. apply Forall_cons in Hvs as [Hne Hvs].
  apply Forall_cons in Hbefore as [[event Hu] Hbefore].
  destruct u; [done|]. cbn [truthy]. rewrite Hu. cbn.
  by rewrite (IH v after e).
Qed.

End Loads.

(** C6.  The timing stream is cut at whitespace into records, none of them
    empty; the records are decoded one by one, in stream order, into one
    event each; and when a record does not decode, the parse as a whole
    raises that record's error and gives no events. *)
Theorem parse_word_events_records {char E J : Type} (isspace : char → bool)
    (decode : bytes → result E (list char))
    (json_loads : list char → result E J) :
  (split isspace [] = [] ∧
   (∀ w rest, isspace w = true →
      split isspace (w :: rest) = split isspace rest) ∧
   (∀ t, nonblank isspace t → split isspace t = [t]) ∧
   (∀ t w rest, nonblank isspace t → isspace w = true →
      split isspace (t ++ w :: rest) = t :: split isspace rest)) ∧
  (∀ text, Forall (nonblank isspace) (split isspace text)) ∧
  (∀ speech_marks e,
     decode speech_marks = raise e →
     parse_word_events isspace decode json_loads speech_marks = raise e) ∧
  (∀ speech_marks text events,
     decode speech_marks = ok text →
     (parse_word_events isspace decode json_loads speech_marks = ok events
      ↔ Forall2 (λ v event, json_loads v = ok event)
          (split isspace text) events)) ∧
  (∀ speech_marks text before v after e,
     decode speech_marks = ok text →
     split isspace text = before ++ v :: after →
     Forall (λ u, ∃ event, json_loads u = ok event) before →
     json_loads v = raise e →
     parse_word_events isspace decode json_loads speech_marks = raise e).
Proof.
  assert (∀ text, Forall (λ v, v ≠ []) (split isspace text)) as Hne.
  { intros text. eapply Forall_impl; [apply split_nonblank|].
    by intros v [Hv _]. }
  split; [|split; [|split; [|split]]].
  - split; [apply split_nil|]. split; [apply split_space|].
    split; [apply split_word | apply split_word_space].
  - apply split_nonblank.
  - intros speech_marks e Hdecode.
    unfold parse_word_events. by rewrite Hdecode.
  - intros speech_marks text events Hdecode.
    unfold parse_word_events. rewrite Hdecode. cbn.
    by apply loads_each_ok.
  - intros speech_marks text before v after e Hdecode Hsplit Hbefore Hv.
    unfold parse_word_events. rewrite Hdecode. cbn. rewrite Hsplit.
    apply loads_each_raise; [|done..]. rewrite <- Hsplit. apply Hne.
Qed.

Lemma parse_word_events_records_witness :
  Ascii7.decode (Ascii7.encode Ascii7.broken_marks) = ok Ascii7.broken_marks ∧
  split Ascii7.isspace Ascii7.broken_marks
  = [Ascii7.mark "0" "0"] ++ Ascii7.str "{oops" :: [Ascii7.mark "500" "6"] ∧
  Forall (λ u, ∃ event, Ascii7.json_loads u = ok event)
    [Ascii7.mark "0" "0"] ∧
  Ascii7.json_loads (Ascii7.str "{oops") = raise "JSONDecodeError"%string ∧
  parse_word_events Ascii7.isspace Ascii7.decode Ascii7.json_loads
    (Ascii7.encode Ascii7.broken_marks) = raise "JSONDecodeError"%string.
Proof.
  assert (Forall (λ u, ∃ event, Ascii7.json_loads u = ok event)
            [Ascii7.mark "0" "0"]) as Hbefore.
  { constructor; [|constructor]. exists (mkEvent 0 0). reflexivity. }
  split; [reflexivity|]. split; [reflexivity|]. split; [exact Hbefore|].
  split; [reflexivity|].
  exact (proj2 (proj2 (proj2 (proj2
           (parse_word_events_records Ascii7.isspace Ascii7.decode
              Ascii7.json_loads))))
           (Ascii7.encode Ascii7.broken_marks) Ascii7.broken_marks
           [Ascii7.mark "0" "0"] (Ascii7.str "{oops") [Ascii7.mark "500" "6"]
           "JSONDecodeError"%string eq_refl eq_refl Hbefore eq_refl).
Defined.

(** The stream of two marks, with a blank line between them, parses to the
    two events in order. *)
Example parse_word_events_two_marks :
  parse_word_events Ascii7.isspace Ascii7.decode Ascii7.json_loads
    (Ascii7.encode
       (Ascii7.mark "0" "0" ++ [Ascii7.newline; Ascii7.newline]
          ++ Ascii7.mark "500" "6" ++ [Ascii7.newline]))
  = ok [mkEvent 0 0; mkEvent 500 6].
Proof. vm_compute. reflexivity. Qed.

(** * Further properties of the module *)

(** ** The chunk producer, byte by byte *)

Lemma concat_chunks_from (c k : nat) : ∀ d : bytes,
  concat (map chunk (chunks_from c (λ x, x) k d)) = d.
Proof.
  induction k as [|k IH]; intros d; cbn.
  - apply app_nil_r.
  - rewrite IH. apply take_drop.
Qed.

(** X1.  For a chunk size [c >= 1] and no transform, the payloads of the
    chunks the generator yields, put end to end in the order yielded, are
    the bytes of the stream: nothing is lost, repeated or reordered. *)
Theorem chunk_generator_payloads_concat (c : nat) (s : Stream) :
  1 ≤ c →
  ∃ chunks s',
    (∀ fuel, length (data s) / c + 2 ≤ fuel →
       consume c (λ x, x) fuel Created s = Some (chunks, s')) ∧
    concat (map chunk chunks) = data s.
Proof.
  intros Hc. destruct s as [d r cl]. cbn [data].
  exists (chunks_from c (λ x, x) (length d / c) d),
    (mkStream [] (r + length d / c + 1) cl).
  split; [|apply concat_chunks_from].
  intros fuel Hfuel. apply consume_reading; unfold reading; auto.
Qed.

Lemma chunk_generator_payloads_concat_witness :
  1 ≤ 2 ∧
  ∃ chunks s',
    (∀ fuel, length (data (open_stream [x00; x00; x00])) / 2 + 2 ≤ fuel →
       consume 2 (λ x, x) fuel Created (open_stream [x00; x00; x00])
       = Some (chunks, s')) ∧
    concat (map chunk chunks) = data (open_stream [x00; x00; x00]).
Proof.
  split; [lia|].
  apply (chunk_generator_payloads_concat 2 (open_stream [x00; x00; x00])).
  lia.
Defined.

(** X2.  For a chunk size [c >= 1] a complete run leaves the stream empty,
    has issued exactly one [read] per chunk yielded, and has not closed the
    stream. *)
Theorem chunk_generator_drains_stream (c : nat) (f : bytes → bytes)
    (s : Stream) :
  1 ≤ c →
  ∃ chunks,
    ∀ fuel, length (data s) / c + 2 ≤ fuel →
      consume c f fuel Created s
      = Some (chunks, mkStream [] (reads s + length chunks) (closes s)).
Proof.
  intros Hc. destruct s as [d r cl]. cbn [data reads closes].
  exists (chunks_from c f (length d / c) d).
  intros fuel Hfuel.
  rewrite (consume_reading c f (length d / c) Created d r cl fuel)
    by (unfold reading; auto).
  rewrite chunks_from_full, length_app, length_full_chunks. cbn [length].
  do 3 f_equal. lia.
Qed.

Lemma chunk_generator_drains_stream_witness :
  1 ≤ 2 ∧
  ∃ chunks,
    ∀ fuel, length (data (mkStream [x00; x00; x00] 0 0)) / 2 + 2 ≤ fuel →
      consume 2 (λ x, x) fuel Created (mkStream [x00; x00; x00] 0 0)
      = Some (chunks,
              mkStream [] (reads (mkStream [x00; x00; x00] 0 0)
                           + length chunks)
                (closes (mkStream [x00; x00; x00] 0 0))).
Proof.
  split; [lia|].
  apply (chunk_generator_drains_stream 2 (λ x, x)
           (mkStream [x00; x00; x00] 0 0)). lia.
Defined.

Lemma pulls_full_reads (c : nat) (f : bytes → bytes) (k : nat) :
  ∀ g d r cl,
    1 ≤ c → reading g → k * c ≤ length d →
    ∃ g', reading g' ∧
      pulls c f k g (mkStream d r cl)
      = (map Yielded (full_chunks c f k d), g',
         mkStream (drop (k * c) d) (r + k) cl).
Proof.
  induction k as [|k IH]; intros g d r cl Hc Hg Hk.
  - exists g. split; [done|]. cbn. by rewrite Nat.add_0_r.
  - destruct (anext_full c f g d r cl Hg Hc ltac:(lia))
      as (g1 & Hg1 & Hstep).
    destruct (IH g1 (drop c d) (S r) cl Hc Hg1) as (g2 & Hg2 & Hrun).
    { rewrite length_drop. lia. }
    exists g2. split; [done|].
    rewrite pulls_unfold, Hstep, Hrun. cbn [map full_chunks].
    rewrite drop_drop.
    replace (c + k * c) with (S k * c) by lia.
    by replace (S r + k) with (r + S k) by lia.
Qed.

(** X3.  The generator reads on demand: for [c >= 1], after [k] pulls that
    the stream can serve in full it has yielded [k] non-final chunks, has
    issued exactly [k] reads, and has taken exactly the first [k * c] bytes
    off the stream. *)
Theorem chunk_generator_reads_on_demand (c : nat) (f : bytes → bytes)
    (k : nat) (d : bytes) (r cl : nat) :
  1 ≤ c → k * c ≤ length d →
  ∃ g', reading g' ∧
    pulls c f k Created (mkStream d r cl)
    = (map Yielded (full_chunks c f k d), g',
       mkStream (drop (k * c) d) (r + k) cl) ∧
    length (full_chunks c f k d) = k ∧
    Forall (λ ch, is_last_chunk ch = false) (full_chunks c f k d).
Proof.
  intros Hc Hk.
  destruct (pulls_full_reads c f k Created d r cl Hc) as (g' & Hg' & Hrun);
    [unfold reading; auto | done |].
  exists g'. split; [done|]. split; [done|].
  split; [apply length_full_chunks | apply full_chunks_not_last].
Qed.

Lemma chunk_generator_reads_on_demand_witness :
  1 ≤ 2 ∧ 1 * 2 ≤ length [x00; x00; x00] ∧
  ∃ g', reading g' ∧
    pulls 2 (λ x, x) 1 Created (mkStream [x00; x00; x00] 0 0)
    = (map Yielded (full_chunks 2 (λ x, x) 1 [x00; x00; x00]), g',
       mkStream (drop (1 * 2) [x00; x00; x00]) (0 + 1) 0) ∧
    length (full_chunks 2 (λ x, x) 1 [x00; x00; x00]) = 1 ∧
    Forall (λ ch, is_last_chunk ch = false)
      (full_chunks 2 (λ x, x) 1 [x00; x00; x00]).
Proof.
  split; [lia|]. split; [cbn; lia|].
  apply (chunk_generator_reads_on_demand 2 (λ x, x) 1 [x00; x00; x00] 0 0);
    cbn; lia.
Defined.

(** With a chunk size of zero every read is "full": an empty non-final
    chunk, and the generator stays reading. *)
Lemma anext_zero (f : bytes → bytes) (g : GenState) (s : Stream) :
  reading g →
  ∃ g', reading g' ∧
    anext 0 f g s
    = (Yielded (mkChunk (f []) false), g',
       mkStream (data s) (S (reads s)) (closes s)).
Proof.
  intros [-> | [-> | ->]]; cbn; rewrite drop_0;
    eexists; (split; [|reflexivity]); unfold reading; auto.
Qed.

Lemma consume_zero (f : bytes → bytes) (fuel : nat) : ∀ g s,
  reading g → consume 0 f fuel g s = None.
Proof.
  induction fuel as [|fuel IH]; intros g s Hg; [done|].
  destruct (anext_zero f g s Hg) as (g' & Hg' & Hstep).
  cbn [consume]. rewrite Hstep. by rewrite IH.
Qed.

Lemma pulls_zero (f : bytes → bytes) (n : nat) : ∀ g s,
  reading g →
  (pulls 0 f n g s).1.1 = replicate n (Yielded (mkChunk (f []) false)) ∧
  data (pulls 0 f n g s).2 = data s ∧
  reads (pulls 0 f n g s).2 = reads s + n.
Proof.
  induction n as [|n IH]; intros g s Hg.
  - cbn. split; [done|]. split; [done|lia].
  - destruct (anext_zero f g s Hg) as (g' & Hg' & Hstep).
    rewrite pulls_unfold, Hstep.
    specialize (IH g' (mkStream (data s) (S (reads s)) (closes s)) Hg').
    destruct (pulls 0 f n g' _) as [[ps g2] s2]. cbn in *.
    destruct IH as (-> & -> & ->). split; [done|]. split; [done|lia].
Qed.

(** X4.  With a chunk size of zero the generator never ends: every pull
    yields an empty chunk that is not flagged final and takes nothing off the
    stream, so iterating over it does not terminate whatever the number of
    pulls allowed. *)
Theorem chunk_generator_zero_chunk_size (f : bytes → bytes) (s : Stream) :
  (∀ fuel, consume 0 f fuel Created s = None) ∧
  (∀ n, (pulls 0 f n Created s).1.1
        = replicate n (Yielded (mkChunk (f []) false)) ∧
        data (pulls 0 f n Created s).2 = data s ∧
        reads (pulls 0 f n Created s).2 = reads s + n).
Proof.
  split.
  - intros fuel. apply consume_zero. unfold reading. auto.
  - intros n. apply pulls_zero. unfold reading. auto.
Qed.

(** X5.  Whatever the state, the stream and the chunk size, a pull that
    yields a chunk (no transform) has issued exactly one read; the chunk is
    not flagged final exactly when it holds [chunk_size] bytes, it never
    holds more, it is the bytes taken off the front of the stream, and the
    generator is left reading after a non-final chunk and stopped after a
    final one. *)
Theorem anext_chunk_flag_and_length (c : nat) (g g' : GenState)
    (s s' : Stream) (ch : ChunkResult) :
  anext c (λ x, x) g s = (Yielded ch, g', s') →
  (is_last_chunk ch = false ↔ length (chunk ch) = c) ∧
  length (chunk ch) ≤ c ∧
  chunk ch ++ data s' = data s ∧
  reads s' = S (reads s) ∧
  closes s' = closes s ∧
  (if is_last_chunk ch then stopped g' else reading g').
Proof.
  intros Hstep.
  assert (length (take c (data s)) ≤ c) as Hle
    by (rewrite length_take; lia).
  destruct g; cbn in Hstep; try discriminate;
    destruct (length (take c (data s)) =? c) eqn:Hlen; cbn in Hstep;
    inversion Hstep; subst; clear Hstep; cbn;
    rewrite ?firstn_all, ?take_drop;
    (apply Nat.eqb_eq in Hlen || apply Nat.eqb_neq in Hlen);
    (repeat split; try done; try lia; try discriminate;
     unfold reading, stopped; auto).
Qed.

Lemma anext_chunk_flag_and_length_witness :
  anext 2 (λ x, x) Yield105 (mkStream [x00; x00; x00] 1 0)
  = (Yielded (mkChunk [x00; x00] false), Yield113, mkStream [x00] 2 0) ∧
  (is_last_chunk (mkChunk [x00; x00] false) = false
   ↔ length (chunk (mkChunk [x00; x00] false)) = 2) ∧
  length (chunk (mkChunk [x00; x00] false)) ≤ 2 ∧
  chunk (mkChunk [x00; x00] false) ++ data (mkStream [x00] 2 0)
  = data (mkStream [x00; x00; x00] 1 0) ∧
  reads (mkStream [x00] 2 0) = S (reads (mkStream [x00; x00; x00] 1 0)) ∧
  closes (mkStream [x00] 2 0) = closes (mkStream [x00; x00; x00] 1 0) ∧
  (if is_last_chunk (mkChunk [x00; x00] false)
   then stopped Yield113 else reading Yield113).
Proof.
  split; [reflexivity|].
  apply (anext_chunk_flag_and_length 2 Yield105 Yield113
           (mkStream [x00; x00; x00] 1 0) (mkStream [x00] 2 0)
           (mkChunk [x00; x00] false)).
  reflexivity.
Defined.

(** ** The alignment at a negative offset *)

(** X6.  When the first event later than the elapsed time has a negative
    [start] of [-k], [get_message_up_to] returns the message without its last
    [k] characters (the empty text when [k] exceeds the length): a negative
    offset counts from the end, it is not an error. *)
Theorem get_message_up_to_negative_start {char : Type} (message : list char)
    (seconds : Q) (before : list WordEvent) (event : WordEvent)
    (after : list WordEvent) :
  Forall (λ e, later_than e seconds = false) before →
  later_than event seconds = true →
  (start event < 0)%Z →
  get_message_up_to message seconds (before ++ event :: after)
  = take (length message - Z.to_nat (- start event)) message.
Proof.
  intros Hbefore Hevent Hneg.
  rewrite get_message_up_to_first by done.
  unfold slice_to.
  destruct (Z.ltb_spec (start event) 0) as [_|]; [|lia].
  f_equal. lia.
Qed.

Lemma get_message_up_to_negative_start_witness :
  Forall (λ e, later_than e 0 = false) [mkEvent 0 0] ∧
  later_than (mkEvent 500 (-5)) 0 = true ∧
  (start (mkEvent 500 (-5)) < 0)%Z ∧
  get_message_up_to (Ascii7.str "hello world") 0
    ([mkEvent 0 0] ++ mkEvent 500 (-5) :: [])
  = take (length (Ascii7.str "hello world")
          - Z.to_nat (- start (mkEvent 500 (-5))))
      (Ascii7.str "hello world").
Proof.
  assert (Forall (λ e, later_than e 0 = false) [mkEvent 0 0]) as Hbefore.
  { constructor; [reflexivity|constructor]. }
  assert (start (mkEvent 500 (-5)) < 0)%Z as Hneg by (cbn; lia).
  split; [exact Hbefore|]. split; [reflexivity|]. split; [exact Hneg|].
  exact (get_message_up_to_negative_start (Ascii7.str "hello world") 0
           [mkEvent 0 0] (mkEvent 500 (-5)) [] Hbefore eq_refl Hneg).
Defined.

(** ** More on [str.split()] *)

Section SplitMore.

Context {char : Type}.
Variable isspace : char → bool.

Lemma concat_split_from (s : list char) : ∀ word,
  concat (split_from isspace word s)
  = rev word ++ filter (λ ch, isspace ch = false) s.
Proof.
  induction s as [|ch s IH]; intros word.
  - destruct word; cbn; [done|]. by rewrite !app_nil_r.
  - cbn [split_from]. destruct (isspace ch) eqn:Hch.
    + rewrite filter_cons_False by (rewrite Hch; discriminate).
      destruct word as [|x word]; [apply IH|].
      cbn [concat]. by rewrite IH.
    + rewrite filter_cons_True by done.
      rewrite IH. cbn [rev]. by rewrite <- app_assoc.
Qed.

Lemma split_spaces (ws rest : list char) :
  Forall (λ ch, isspace ch = true) ws →
  split isspace (ws ++ rest) = split isspace rest.
Proof.
  induction 1 as [|w ws Hw _ IH]; [done|].
  cbn [app]. by rewrite split_space.
Qed.

Lemma split_join (sep : list char) (tokens : list (list char)) :
  sep ≠ [] → Forall (λ ch, isspace ch = true) sep →
  Forall (nonblank isspace) tokens →
  split isspace (join sep tokens) = tokens.
Proof.
  intros Hne Hsep Htokens.
  destruct sep as [|w sep]; [done|].
  apply Forall_cons in Hsep as [Hw Hsep].
  induction Htokens as [|t tokens Ht Htokens IH]; [done|].
  destruct tokens as [|t' tokens].
  - cbn. by apply split_word.
  - change (join (w :: sep) (t :: t' :: tokens))
      with (t ++ w :: (sep ++ join (w :: sep) (t' :: tokens))).
    rewrite split_word_space by done.
    by rewrite split_spaces, IH.
Qed.

End SplitMore.

(** X7.  The tokens of [split], put end to end, are the text with its
    whitespace removed: splitting drops whitespace only, and keeps every
    other character once and in order. *)
Theorem split_keeps_nonspace {char : Type} (isspace : char → bool)
    (s : list char) :
  concat (split isspace s) = filter (λ ch, isspace ch = false) s.
Proof. apply (concat_split_from isspace s []). Qed.

(** X8.  Splitting undoes joining: records that are non-empty and free of
    whitespace, joined by a non-empty separator made of whitespace, are
    given back by [split] as they were, in order. *)
Theorem split_join_roundtrip {char : Type} (isspace : char → bool)
    (sep : list char) (tokens : list (list char)) :
  sep ≠ [] → Forall (λ ch, isspace ch = true) sep →
  Forall (nonblank isspace) tokens →
  split isspace (join sep tokens) = tokens.
Proof. apply split_join. Qed.

Lemma split_join_roundtrip_witness :
  [Ascii7.newline] ≠ [] ∧
  Forall (λ ch, Ascii7.isspace ch = true) [Ascii7.newline] ∧
  Forall (nonblank Ascii7.isspace)
    [Ascii7.mark "0" "0"; Ascii7.mark "500" "6"] ∧
  split Ascii7.isspace
    (join [Ascii7.newline] [Ascii7.mark "0" "0"; Ascii7.mark "500" "6"])
  = [Ascii7.mark "0" "0"; Ascii7.mark "500" "6"].
Proof.
  assert ([Ascii7.newline] ≠ []) as Hne by discriminate.
  assert (Forall (λ ch, Ascii7.isspace ch = true) [Ascii7.newline]) as Hsep.
  { constructor; [reflexivity|constructor]. }
  assert (Forall (nonblank Ascii7.isspace)
            [Ascii7.mark "0" "0"; Ascii7.mark "500" "6"]) as Htokens.
  { repeat constructor; try discriminate; reflexivity. }
  split; [exact Hne|]. split; [exact Hsep|]. split; [exact Htokens|].
  exact (split_join_roundtrip Ascii7.isspace [Ascii7.newline]
           [Ascii7.mark "0" "0"; Ascii7.mark "500" "6"] Hne Hsep Htokens).
Defined.

(** ** The method on the values of [json.loads] *)

Section JsonAlignment.

Context {char : Type}.
Implicit Types (message : list char) (values : list json).

Lemma json_step_mark message seconds (v : json) (event : WordEvent) values :
  is_mark v event →
  Json.get_message_up_to message seconds (v :: values)
  = if later_than event seconds
    then ok (slice_to message (start event))
    else Json.get_message_up_to message seconds values.
Proof.
  intros (d & -> & Htime & Hstart). cbn. rewrite Htime. cbn.
  unfold later_than. destruct (int_gt_float _ _); [|done].
  by rewrite Hstart.
Qed.

Lemma json_get_message_up_to_marks message seconds values :
  ∀ events, Forall2 is_mark values events →
    Json.get_message_up_to message seconds values
    = ok (get_message_up_to message seconds events).
Proof.
  induction values as [|v values IH]; intros events Hmarks.
  - by apply Forall2_nil_inv_l in Hmarks as ->.
  - apply Forall2_cons_inv_l in Hmarks as (event & events' & Hv & Hrest & ->).
    rewrite (json_step_mark _ _ _ event) by done. cbn.
    destruct (later_than event seconds); [done|]. by apply IH.
Qed.

Lemma json_skip_earlier message seconds values :
  ∀ events rest, Forall2 is_mark values events →
    Forall (λ e, later_than e seconds = false) events →
    Json.get_message_up_to message seconds (values ++ rest)
    = Json.get_message_up_to message seconds rest.
Proof.
  induction values as [|v values IH]; intros events rest Hmarks Hearlier.
  - done.
  - apply Forall2_cons_inv_l in Hmarks as (event & events' & Hv & Hrest & ->).
    apply Forall_cons in Hearlier as [He Hearlier].
    cbn [app]. rewrite (json_step_mark _ _ _ event) by done.
    rewrite He. by apply (IH events').
Qed.

Lemma json_get_message_up_to_prefix message seconds values :
  ∀ p, Json.get_message_up_to message seconds values = ok p →
       p `prefix_of` message.
Proof.
  induction values as [|v values IH]; intros p; cbn.
  - by intros [= <-].
  - destruct (getitem v "time") as [e | t]; cbn; [done|].
    destruct (gt_float t _) as [e | [|]]; cbn; [done| |by apply IH].
    destruct (getitem v "start") as [e | stop]; cbn; [done|].
    destruct stop; cbn; try done; intros [= <-];
      done || apply slice_to_prefix.
Qed.

End JsonAlignment.

(** ** The assembled result *)

(** X9.  When the timing stream is empty or holds whitespace only, there are
    no word events: [create_speech_with_cache] succeeds and the alignment of
    its result returns the whole text whatever the elapsed time. *)
Theorem no_marks_no_truncation {char E Client : Type} (isspace : char → bool)
    (decode : bytes → result E (list char))
    (json_loads : list char → result E json)
    (encode_as_wav : bytes → PollySynthesizerConfig → bytes)
    (self : PollySynthesizer Client) (text : list char) (chunk_size : nat)
    (audio speech_marks : bytes) (marks_text : list char) :
  decode speech_marks = ok marks_text →
  Forall (λ ch, isspace ch = true) marks_text →
  ∃ r,
    (create_speech_with_cache isspace decode json_loads encode_as_wav self
       text chunk_size audio speech_marks).2 = ok r ∧
    ∀ seconds, get_message_up_to_closure r seconds = ok text.
Proof.
  intros Hdecode Hblank.
  assert (split isspace marks_text = []) as Hsplit.
  { rewrite <- (app_nil_r marks_text). by rewrite split_spaces. }
  unfold create_speech_with_cache, parse_word_events. cbn [snd].
  rewrite Hdecode. cbn. rewrite Hsplit. cbn.
  eexists. split; reflexivity.
Qed.

Lemma no_marks_no_truncation_witness :
  Ascii7.decode (Ascii7.encode [Ascii7.newline; Ascii7.newline])
  = ok [Ascii7.newline; Ascii7.newline] ∧
  Forall (λ ch, Ascii7.isspace ch = true) [Ascii7.newline; Ascii7.newline] ∧
  ∃ r,
    (create_speech_with_cache Ascii7.isspace Ascii7.decode Ascii7.loads
       (λ b _, b)
       (mkSynthesizer (mkConfig 8000 "en-US" "Joanna" false) 8000 tt
          "en-US" "Joanna")
       (Ascii7.str "hello world") 2 [x00; x00; x00]
       (Ascii7.encode [Ascii7.newline; Ascii7.newline])).2 = ok r ∧
    ∀ seconds, get_message_up_to_closure r seconds
               = ok (Ascii7.str "hello world").
Proof.
  assert (Forall (λ ch, Ascii7.isspace ch = true)
            [Ascii7.newline; Ascii7.newline]) as Hblank.
  { repeat constructor. }
  split; [reflexivity|]. split; [exact Hblank|].
  exact (no_marks_no_truncation Ascii7.isspace Ascii7.decode
           Ascii7.loads (λ b _, b)
           (mkSynthesizer (mkConfig 8000 "en-US" "Joanna" false) 8000 tt
              "en-US" "Joanna")
           (Ascii7.str "hello world") 2 [x00; x00; x00]
           (Ascii7.encode [Ascii7.newline; Ascii7.newline])
           [Ascii7.newline; Ascii7.newline] eq_refl Hblank).
Defined.

(** X10.  A synthesizer that [__init__] has built sends, for a message, two
    requests to the client it was built with: the audio request and the
    speech marks request carry the same text, language, voice, text type and
    sample rate, the sample rate is the string "8000" or "16000", and they
    differ in the output format ("pcm", "json") and in the speech mark types
    (none, ["word"]). *)
Theorem requests_of_constructed_synthesizer {char Client Response : Type}
    (synthesize_speech : Client → SynthesizeSpeechRequest char → Response)
    (polly : Client) (config : PollySynthesizerConfig)
    (self : PollySynthesizer Client) (message : list char) :
  (__init__ polly config).2 = ok self →
  ∃ rate,
    (rate = "8000"%string ∨ rate = "16000"%string) ∧
    rate = str_of_int (sampling_rate config) ∧
    synthesize synthesize_speech self message
    = synthesize_speech polly
        (mkRequest message (language_code config) "text" "pcm"
           (voice_id config) rate None) ∧
    get_speech_marks synthesize_speech self message
    = synthesize_speech polly
        (mkRequest message (language_code config) "text" "json"
           (voice_id config) rate (Some ["word"%string])).
Proof.
  unfold __init__.
  destruct (decide (sampling_rate config ∉ [8000%Z; 16000%Z])) as [|Hin];
    cbn [snd]; [discriminate|].
  intros [= <-]. apply dec_stable in Hin.
  exists (str_of_int (sampling_rate config)).
  split; [|done].
  rewrite !elem_of_cons, elem_of_nil in Hin.
  destruct Hin as [-> | [-> | []]]; [by left | by right].
Qed.

Lemma requests_of_constructed_synthesizer_witness :
  (__init__ tt (mkConfig 16000 "en-US" "Joanna" false)).2
  = ok (mkSynthesizer (mkConfig 16000 "en-US" "Joanna" false) 16000 tt
          "en-US" "Joanna") ∧
  ∃ rate,
    (rate = "8000"%string ∨ rate = "16000"%string) ∧
    rate = str_of_int (sampling_rate (mkConfig 16000 "en-US" "Joanna" false)) ∧
    synthesize (λ _ req, req)
      (mkSynthesizer (mkConfig 16000 "en-US" "Joanna" false) 16000 tt
         "en-US" "Joanna") (Ascii7.str "hi")
    = mkRequest (Ascii7.str "hi")
        (language_code (mkConfig 16000 "en-US" "Joanna" false)) "text" "pcm"
        (voice_id (mkConfig 16000 "en-US" "Joanna" false)) rate None ∧
    get_speech_marks (λ _ req, req)
      (mkSynthesizer (mkConfig 16000 "en-US" "Joanna" false) 16000 tt
         "en-US" "Joanna") (Ascii7.str "hi")
    = mkRequest (Ascii7.str "hi")
        (language_code (mkConfig 16000 "en-US" "Joanna" false)) "text" "json"
        (voice_id (mkConfig 16000 "en-US" "Joanna" false)) rate
        (Some ["word"%string]).
Proof.
  split; [reflexivity|].
  apply (requests_of_constructed_synthesizer (λ _ req, req) tt
           (mkConfig 16000 "en-US" "Joanna" false)
           (mkSynthesizer (mkConfig 16000 "en-US" "Joanna" false) 16000 tt
              "en-US" "Joanna") (Ascii7.str "hi")).
  reflexivity.
Defined.

(** X11.  End to end, without WAV encoding: when [create_speech_with_cache]
    returns a result for a chunk size [c >= 1], iterating over its generator
    ends, yields [n / c + 1] chunks for [n] bytes of audio whose payloads put
    end to end are the audio; its alignment, at every elapsed time, either
    raises or returns a prefix of the text, and it does not raise when every
    parsed record is an object with integer ["time"] and ["start"]. *)
Theorem create_speech_with_cache_streams_audio {char E Client : Type}
    (isspace : char → bool) (decode : bytes → result E (list char))
    (json_loads : list char → result E json)
    (encode_as_wav : bytes → PollySynthesizerConfig → bytes)
    (self : PollySynthesizer Client) (text : list char) (chunk_size : nat)
    (audio speech_marks : bytes) (r : SynthesisResult char) :
  1 ≤ chunk_size →
  should_encode_as_wav (synthesizer_config self) = false →
  (create_speech_with_cache isspace decode json_loads encode_as_wav self
     text chunk_size audio speech_marks).2 = ok r →
  ∃ chunks s',
    (∀ fuel, length audio / chunk_size + 2 ≤ fuel →
       consume (generator_chunk_size r) (generator_chunk_transform r) fuel
         (generator_state r) (audio_stream r) = Some (chunks, s')) ∧
    length chunks = length audio / chunk_size + 1 ∧
    concat (map chunk chunks) = audio ∧
    (∀ seconds p, get_message_up_to_closure r seconds = ok p →
                  p `prefix_of` text) ∧
    (∀ values events,
       parse_word_events isspace decode json_loads speech_marks = ok values →
       Forall2 is_mark values events →
       ∀ seconds, get_message_up_to_closure r seconds
                  = ok (get_message_up_to text seconds events)).
Proof.
  intros Hc Hwav. unfold create_speech_with_cache. cbn [snd].
  destruct (parse_word_events _ _ _ _) as [e | values]; cbn; [done|].
  intros [= <-]. cbn.
  unfold output_transform. rewrite Hwav.
  exists (chunks_from chunk_size (λ x, x) (length audio / chunk_size) audio),
    (mkStream [] (0 + length audio / chunk_size + 1) 0).
  split; [|split; [|split; [|split]]].
  - intros fuel Hfuel. apply consume_reading; unfold reading; auto.
  - rewrite chunks_from_full, length_app, length_full_chunks. cbn. lia.
  - apply concat_chunks_from.
  - intros seconds p. apply json_get_message_up_to_prefix.
  - intros values' events [= <-] Hmarks seconds.
    by apply json_get_message_up_to_marks.
Qed.

Lemma create_speech_with_cache_streams_audio_witness :
  1 ≤ 2 ∧
  should_encode_as_wav
    (synthesizer_config
       (mkSynthesizer (mkConfig 8000 "en-US" "Joanna" false) 8000 tt
          "en-US" "Joanna")) = false ∧
  ∃ r,
    (create_speech_with_cache Ascii7.isspace Ascii7.decode Ascii7.loads
       (λ b _, b)
       (mkSynthesizer (mkConfig 8000 "en-US" "Joanna" false) 8000 tt
          "en-US" "Joanna")
       (Ascii7.str "hello world") 2 [x00; x00; x00]
       (Ascii7.encode (Ascii7.mark "500" "6"))).2 = ok r ∧
    ∃ chunks s',
      (∀ fuel, length [x00; x00; x00] / 2 + 2 ≤ fuel →
         consume (generator_chunk_size r) (generator_chunk_transform r) fuel
           (generator_state r) (audio_stream r) = Some (chunks, s')) ∧
      length chunks = length [x00; x00; x00] / 2 + 1 ∧
      concat (map chunk chunks) = [x00; x00; x00] ∧
      (∀ seconds p, get_message_up_to_closure r seconds = ok p →
                    p `prefix_of` Ascii7.str "hello world") ∧
      (∀ values events,
         parse_word_events Ascii7.isspace Ascii7.decode Ascii7.loads
           (Ascii7.encode (Ascii7.mark "500" "6")) = ok values →
         Forall2 is_mark values events →
         ∀ seconds, get_message_up_to_closure r seconds
                    = ok (get_message_up_to (Ascii7.str "hello world")
                            seconds events)).
Proof.
  split; [lia|]. split; [reflexivity|].
  eexists. split; [reflexivity|].
  apply (create_speech_with_cache_streams_audio Ascii7.isspace Ascii7.decode
           Ascii7.loads (λ b _, b)
           (mkSynthesizer (mkConfig 8000 "en-US" "Joanna" false) 8000 tt
              "en-US" "Joanna")
           (Ascii7.str "hello world") 2 [x00; x00; x00]
           (Ascii7.encode (Ascii7.mark "500" "6")));
    [lia | reflexivity | reflexivity].
Defined.

(** X12.  With WAV encoding on and a chunk size [c >= 1] that divides the
    length of the audio (the empty audio included), the run ends with one
    more chunk after the audio is used up: [encode_as_wav] applied to the
    empty bytes, flagged final. *)
Theorem wav_run_ends_with_encoded_empty_chunk
    (encode_as_wav : bytes → PollySynthesizerConfig → bytes)
    (config : PollySynthesizerConfig) (c : nat) (s : Stream) :
  1 ≤ c →
  should_encode_as_wav config = true →
  length (data s) mod c = 0 →
  ∃ chunks s',
    (∀ fuel, length (data s) / c + 2 ≤ fuel →
       consume c (output_transform encode_as_wav config) fuel Created s
       = Some (chunks, s')) ∧
    last chunks = Some (mkChunk (encode_as_wav [] config) true).
Proof.
  intros Hc Hwav Hmod. destruct s as [d r cl]. cbn [data] in *.
  unfold output_transform. rewrite Hwav.
  exists (chunks_from c (λ chunk, encode_as_wav chunk config)
            (length d / c) d),
    (mkStream [] (r + length d / c + 1) cl).
  split.
  - intros fuel Hfuel. apply consume_reading; unfold reading; auto.
  - rewrite chunks_from_full, last_snoc.
    rewrite (drop_ge d); [done|].
    pose proof (Nat.div_mod (length d) c ltac:(lia)). lia.
Qed.

Lemma wav_run_ends_with_encoded_empty_chunk_witness :
  1 ≤ 2 ∧
  should_encode_as_wav (mkConfig 8000 "en-US" "Joanna" true) = true ∧
  length (data (open_stream [x00; x00])) mod 2 = 0 ∧
  ∃ chunks s',
    (∀ fuel, length (data (open_stream [x00; x00])) / 2 + 2 ≤ fuel →
       consume 2
         (output_transform (λ b _, x00 :: b)
            (mkConfig 8000 "en-US" "Joanna" true))
         fuel Created (open_stream [x00; x00])
       = Some (chunks, s')) ∧
    last chunks
    = Some (mkChunk ((λ b _, x00 :: b) []
                       (mkConfig 8000 "en-US" "Joanna" true)) true).
Proof.
  split; [lia|]. split; [reflexivity|]. split; [reflexivity|].
  apply (wav_run_ends_with_encoded_empty_chunk (λ b _, x00 :: b)
           (mkConfig 8000 "en-US" "Joanna" true) 2 (open_stream [x00; x00]));
    [lia | reflexivity | reflexivity].
Defined.

(** ** Writing and reading the timing stream *)

(** X13.  A timing stream written as one record per event, the records
    joined by a whitespace separator, parses back to the events in order,
    provided each record is free of whitespace and decodes to its event. *)
Theorem parse_word_events_of_joined_records {char E J : Type}
    (isspace : char → bool) (decode : bytes → result E (list char))
    (json_loads : list char → result E J) (dumps : J → list char)
    (sep : list char) (events : list J) (speech_marks : bytes) :
  decode speech_marks = ok (join sep (map dumps events)) →
  sep ≠ [] → Forall (λ ch, isspace ch = true) sep →
  Forall (λ event, nonblank isspace (dumps event) ∧
                   json_loads (dumps event) = ok event) events →
  parse_word_events isspace decode json_loads speech_marks = ok events.
Proof.
  intros Hdecode Hne Hsep Hevents.
  unfold parse_word_events. rewrite Hdecode. cbn.
  rewrite split_join; [|done|done|].
  - apply loads_each_ok.
    + apply Forall_fmap. eapply Forall_impl; [exact Hevents|].
      by intros event [[Hnonempty _] _].
    + apply Forall2_fmap_l, Forall_Forall2_diag.
      eapply Forall_impl; [exact Hevents|]. by intros event [_ Hload].
  - apply Forall_fmap. eapply Forall_impl; [exact Hevents|].
    by intros event [Hblank _].
Qed.

Lemma parse_word_events_of_joined_records_witness :
  Ascii7.decode
    (Ascii7.encode
       (join [Ascii7.newline]
          (map (λ e, Ascii7.mark (pretty (time e)) (pretty (start e)))
             [mkEvent 0 0; mkEvent 500 6])))
  = ok (join [Ascii7.newline]
          (map (λ e, Ascii7.mark (pretty (time e)) (pretty (start e)))
             [mkEvent 0 0; mkEvent 500 6])) ∧
  [Ascii7.newline] ≠ [] ∧
  Forall (λ ch, Ascii7.isspace ch = true) [Ascii7.newline] ∧
  Forall (λ event,
            nonblank Ascii7.isspace
              (Ascii7.mark (pretty (time event)) (pretty (start event))) ∧
            Ascii7.json_loads
              (Ascii7.mark (pretty (time event)) (pretty (start event)))
            = ok event)
    [mkEvent 0 0; mkEvent 500 6] ∧
  parse_word_events Ascii7.isspace Ascii7.decode Ascii7.json_loads
    (Ascii7.encode
       (join [Ascii7.newline]
          (map (λ e, Ascii7.mark (pretty (time e)) (pretty (start e)))
             [mkEvent 0 0; mkEvent 500 6])))
  = ok [mkEvent 0 0; mkEvent 500 6].
Proof.
  assert ([Ascii7.newline] ≠ []) as Hne by discriminate.
  assert (Forall (λ ch, Ascii7.isspace ch = true) [Ascii7.newline]) as Hsep.
  { constructor; [reflexivity|constructor]. }
  assert (Forall (λ event,
            nonblank Ascii7.isspace
              (Ascii7.mark (pretty (time event)) (pretty (start event))) ∧
            Ascii7.json_loads
              (Ascii7.mark (pretty (time event)) (pretty (start event)))
            = ok event)
            [mkEvent 0 0; mkEvent 500 6]) as Hevents.
  { repeat constructor; try discriminate; reflexivity. }
  split; [reflexivity|]. split; [exact Hne|]. split; [exact Hsep|].
  split; [exact Hevents|].
  exact (parse_word_events_of_joined_records Ascii7.isspace Ascii7.decode
           Ascii7.json_loads
           (λ e, Ascii7.mark (pretty (time e)) (pretty (start e)))
           [Ascii7.newline] [mkEvent 0 0; mkEvent 500 6]
           (Ascii7.encode
              (join [Ascii7.newline]
                 (map (λ e, Ascii7.mark (pretty (time e)) (pretty (start e)))
                    [mkEvent 0 0; mkEvent 500 6])))
           eq_refl Hne Hsep Hevents).
Defined.

(** X14.  A record is cut at its first whitespace whatever it holds: when
    the stream starts with a run of non-whitespace characters that does not
    decode on its own, the parse raises that run's error, also when the run
    together with what follows the whitespace would be one well-formed
    record. *)
Theorem parse_word_events_cuts_at_whitespace {char E J : Type}
    (isspace : char → bool) (decode : bytes → result E (list char))
    (json_loads : list char → result E J)
    (speech_marks : bytes) (t : list char) (w : char) (rest : list char)
    (e : E) :
  decode speech_marks = ok (t ++ w :: rest) →
  nonblank isspace t → isspace w = true →
  json_loads t = raise e →
  parse_word_events isspace decode json_loads speech_marks = raise e.
Proof.
  intros Hdecode Ht Hw Hload.
  unfold parse_word_events. rewrite Hdecode. cbn.
  rewrite split_word_space by done.
  destruct Ht as [Hne _]. destruct t; [done|].
  cbn. by rewrite Hload.
Qed.

Lemma parse_word_events_cuts_at_whitespace_witness :
  Ascii7.decode
    (Ascii7.encode
       (Ascii7.key_time ++ Ascii7.newline
          :: Ascii7.str "0" ++ Ascii7.key_start ++ Ascii7.str "0}"))
  = ok (Ascii7.key_time ++ Ascii7.newline
          :: Ascii7.str "0" ++ Ascii7.key_start ++ Ascii7.str "0}") ∧
  nonblank Ascii7.isspace Ascii7.key_time ∧
  Ascii7.isspace Ascii7.newline = true ∧
  Ascii7.json_loads Ascii7.key_time = raise "JSONDecodeError"%string ∧
  parse_word_events Ascii7.isspace Ascii7.decode Ascii7.json_loads
    (Ascii7.encode
       (Ascii7.key_time ++ Ascii7.newline
          :: Ascii7.str "0" ++ Ascii7.key_start ++ Ascii7.str "0}"))
  = raise "JSONDecodeError"%string.
Proof.
  assert (nonblank Ascii7.isspace Ascii7.key_time) as Ht.
  { split; [discriminate|]. repeat constructor. }
  split; [reflexivity|]. split; [exact Ht|]. split; [reflexivity|].
  split; [reflexivity|].
  exact (parse_word_events_cuts_at_whitespace Ascii7.isspace Ascii7.decode
           Ascii7.json_loads
           (Ascii7.encode
              (Ascii7.key_time ++ Ascii7.newline
          :: Ascii7.str "0" ++ Ascii7.key_start ++ Ascii7.str "0}"))
           Ascii7.key_time Ascii7.newline
           (Ascii7.str "0" ++ Ascii7.key_start ++ Ascii7.str "0}")
           "JSONDecodeError"%string
           eq_refl Ht eq_refl eq_refl).
Defined.

(** ** The alignment on what [json.loads] returned *)

(** X15.  On parsed records that are objects with an integer ["time"] and an
    integer ["start"], whatever else they hold, the method does not raise
    and returns what it returns on the word marks with those fields. *)
Theorem json_get_message_up_to_on_marks {char : Type} (message : list char)
    (seconds : Q) (values : list json) (events : list WordEvent) :
  Forall2 is_mark values events →
  Json.get_message_up_to message seconds values
  = ok (get_message_up_to message seconds events).
Proof. apply json_get_message_up_to_marks. Qed.

Lemma json_get_message_up_to_on_marks_witness :
  Forall2 is_mark
    [Ascii7.mark_value (mkEvent 0 0);
     JDict {[ "time"%string := JInt 500; "type"%string := JStr "word";
              "start"%string := JInt 6 ]}]
    [mkEvent 0 0; mkEvent 500 6] ∧
  Json.get_message_up_to (Ascii7.str "hello world") 0
    [Ascii7.mark_value (mkEvent 0 0);
     JDict {[ "time"%string := JInt 500; "type"%string := JStr "word";
              "start"%string := JInt 6 ]}]
  = ok (get_message_up_to (Ascii7.str "hello world") 0
          [mkEvent 0 0; mkEvent 500 6]).
Proof.
  assert (Forall2 is_mark
            [Ascii7.mark_value (mkEvent 0 0);
             JDict {[ "time"%string := JInt 500; "type"%string := JStr "word";
                      "start"%string := JInt 6 ]}]
            [mkEvent 0 0; mkEvent 500 6]) as Hmarks.
  { repeat constructor; eexists; (split; [reflexivity|]);
      split; reflexivity. }
  split; [exact Hmarks|].
  exact (json_get_message_up_to_on_marks (Ascii7.str "hello world") 0 _ _
           Hmarks).
Defined.

(** X16.  After records that are word marks not later than the elapsed time,
    the next record decides: a value that is not an object raises
    [TypeError]; an object without ["time"] raises [KeyError] for that key;
    an object whose integer ["time"] is later and that has no ["start"]
    raises [KeyError] for ["start"]; and an object whose integer ["time"] is
    not later is passed over, with or without a ["start"]. *)
Theorem json_get_message_up_to_raises {char : Type} (message : list char)
    (seconds : Q) (values : list json) (events : list WordEvent) (v : json)
    (rest : list json) :
  Forall2 is_mark values events →
  Forall (λ e, later_than e seconds = false) events →
  ((∀ d, v ≠ JDict d) →
   Json.get_message_up_to message seconds (values ++ v :: rest)
   = raise TypeError) ∧
  (∀ d, v = JDict d → d !! "time"%string = None →
        Json.get_message_up_to message seconds (values ++ v :: rest)
        = raise (KeyError "time")) ∧
  (∀ d t, v = JDict d → d !! "time"%string = Some (JInt t) →
          int_gt_float t (float_mul seconds 1000) = true →
          d !! "start"%string = None →
          Json.get_message_up_to message seconds (values ++ v :: rest)
          = raise (KeyError "start")) ∧
  (∀ d t, v = JDict d → d !! "time"%string = Some (JInt t) →
          int_gt_float t (float_mul seconds 1000) = false →
          Json.get_message_up_to message seconds (values ++ v :: rest)
          = Json.get_message_up_to message seconds rest).
Proof.
  intros Hmarks Hearlier.
  rewrite (json_skip_earlier message seconds values events) by done.
  split; [|split; [|split]].
  - intros Hv. destruct v; cbn; try done. by destruct (Hv d).
  - intros d -> Htime. cbn. by rewrite Htime.
  - intros d t -> Htime Hlater Hstart. cbn.
    rewrite Htime. cbn. rewrite Hlater. by rewrite Hstart.
  - intros d t -> Htime Hlater. cbn.
    rewrite Htime. cbn. by rewrite Hlater.
Qed.

Lemma json_get_message_up_to_raises_witness :
  Forall2 is_mark [Ascii7.mark_value (mkEvent 0 0)] [mkEvent 0 0] ∧
  Forall (λ e, later_than e 0 = false) [mkEvent 0 0] ∧
  ({[ "time"%string := JInt 500 ]} : gmap string json) !! "time"%string
  = Some (JInt 500) ∧
  int_gt_float 500 (float_mul 0 1000) = true ∧
  ({[ "time"%string := JInt 500 ]} : gmap string json) !! "start"%string
  = None ∧
  Json.get_message_up_to (Ascii7.str "hello world") 0
    ([Ascii7.mark_value (mkEvent 0 0)]
       ++ JDict {[ "time"%string := JInt 500 ]} :: [])
  = raise (KeyError "start").
Proof.
  assert (Forall2 is_mark [Ascii7.mark_value (mkEvent 0 0)] [mkEvent 0 0])
    as Hmarks.
  { repeat constructor; eexists; (split; [reflexivity|]);
      split; reflexivity. }
  assert (Forall (λ e, later_than e 0 = false) [mkEvent 0 0]) as Hearlier.
  { constructor; [reflexivity|constructor]. }
  split; [exact Hmarks|]. split; [exact Hearlier|].
  split; [reflexivity|]. split; [reflexivity|]. split; [reflexivity|].
  exact (proj1 (proj2 (proj2
           (json_get_message_up_to_raises (Ascii7.str "hello world") 0
              [Ascii7.mark_value (mkEvent 0 0)] [mkEvent 0 0]
              (JDict {[ "time"%string := JInt 500 ]}) [] Hmarks Hearlier)))
           {[ "time"%string := JInt 500 ]} 500%Z eq_refl eq_refl eq_refl
           eq_refl).
Defined.
